(** * The ELMo data pipeline of [elmo/data/dataset.py]

    A shallow embedding of the streaming batch assembler [_get_batch], of the
    single-direction dataset [LMDataset] and of the bidirectional composition
    [BidirectionalLMDataset.iter_batches], with the properties of their
    specification.

    Conventions.
    - Python integers are [Z]; list lengths and loop counters of [range] are
      [nat].  Token ids are copied into [np.int32] arrays unchanged: they are
      vocabulary indices and are taken to fit.
    - Exceptions are values of [exn]; a computation that can raise returns an
      [outcome].
    - A [while] loop whose termination depends on the data takes a fuel
      argument and returns [OutOfFuel] when it runs out.
    - Generators are step functions on an explicit state. *)

From Stdlib Require Import ZArith List Lia Bool Permutation.
From stdpp Require Import gmap strings list fin_maps.

Open Scope Z_scope.

(** ** Exceptions and outcomes *)

Inductive exn : Type :=
  | StopIteration
  | RuntimeError
  | IndexError
  | ValueError
  | TypeError
  | OSError.

#[global] Instance exn_eq_dec : EqDecision exn.
Proof. solve_decision. Defined.

Inductive outcome (A : Type) : Type :=
  | Ok (a : A)
  | Raise (e : exn)
  | OutOfFuel.
Arguments Ok {A} a.
Arguments Raise {A} e.
Arguments OutOfFuel {A}.

#[global] Instance outcome_ret : MRet outcome := fun _ a => Ok a.
#[global] Instance outcome_bind : MBind outcome := fun _ _ f m =>
  match m with
  | Ok a => f a
  | Raise e => Raise e
  | OutOfFuel => OutOfFuel
  end.
#[global] Instance outcome_fmap : FMap outcome := fun _ _ f m =>
  match m with
  | Ok a => Ok (f a)
  | Raise e => Raise e
  | OutOfFuel => OutOfFuel
  end.

(** ** Python slices and numpy slice assignment *)

Module Py.

(** A slice bound [k] on a sequence of length [n]: negative bounds count
    from the end, and the result is clamped to [0 .. n]. *)
Definition bound (n k : Z) : Z :=
  if k <? 0 then Z.max 0 (k + n) else Z.min k n.

(** [l[lo:hi]] *)
Definition slice {A} (l : list A) (lo hi : Z) : list A :=
  let n := Z.of_nat (length l) in
  take (Z.to_nat (bound n hi - bound n lo)) (drop (Z.to_nat (bound n lo)) l).

(** [l[:k]] *)
Definition upto {A} (l : list A) (k : Z) : list A := slice l 0 k.

(** [l[k:]] *)
Definition from {A} (l : list A) (k : Z) : list A :=
  slice l k (Z.of_nat (length l)).

(** [row[lo:hi] = v] on one axis of a numpy array: the value must have the
    length of the slice, or length one (it is then broadcast); otherwise
    numpy raises [ValueError]. *)
Definition assign {A} (row : list A) (lo hi : Z) (v : list A)
  : outcome (list A) :=
  let n := Z.of_nat (length row) in
  let a := Z.to_nat (bound n lo) in
  let m := Z.to_nat (bound n hi - bound n lo) in
  if decide (length v = m) then Ok (take a row ++ v ++ drop (a + m)%nat row)
  else match v with
       | [x] => Ok (take a row ++ replicate m x ++ drop (a + m)%nat row)
       | _ => Raise ValueError
       end.

End Py.

(** ** The batch assembler [_get_batch] *)

(** The character ids of one word: a row of [max_word_length] integers. *)
Definition word_chars : Type := list Z.

(** An encoded sentence as [get_sentence] yields it: the token ids and the
    character ids of its words, or [None].  The assembler only moves tokens
    around, so it is written over any token type [T]; the program is the
    instance [T := Z]. *)
Definition sentence (T : Type) : Type := (list T * option (list word_chars))%type.

(** [cur_stream[i]]: [None], or the list [[ids, chars]] made from a pulled
    sentence. *)
Definition lane (T : Type) : Type := option (sentence T).

(** What [next(generator)] does: yields a sentence and moves on, raises
    [StopIteration] (the generator is exhausted and stays so), or raises
    another exception. *)
Inductive pulled (T G : Type) : Type :=
  | Yielded (s : sentence T) (g : G)
  | Exhausted
  | Failed (e : exn).
Arguments Yielded {T G} s g.
Arguments Exhausted {T G}.
Arguments Failed {T G} e.

(** One batch: the arrays [inputs], [char_inputs] and [targets]. *)
Record batch (T : Type) : Type := Batch {
  token_ids : list (list T);
  tokens_characters : option (list (list word_chars));
  next_token_id : list (list T)
}.
Arguments Batch {T}.
Arguments token_ids {T}.
Arguments tokens_characters {T}.
Arguments next_token_id {T}.

(** What [next] on a generator of batches does. *)
Inductive step (B S : Type) : Type :=
  | Yield (b : B) (s : S)
  | Stop
  | Throw (e : exn)
  | Diverge.
Arguments Yield {B S} b s.
Arguments Stop {B S}.
Arguments Throw {B S} e.
Arguments Diverge {B S}.

Section Assembler.

Context {T : Type} (zero : T).
Context {G : Type} (gen_next : G -> pulled T G).
Variables (batch_size num_steps : nat) (max_word_length : option nat).

(** The local state of the inner [while] loop for lane [i]: the write
    cursor, the lane, row [i] of the three arrays, the generator, and the
    sentences pulled so far with the lane that pulled them.  The last
    field is a history variable: nothing reads it. *)
Record fill : Type := Fill {
  cur_pos : Z;
  cur : lane T;
  in_row : list T;
  ch_row : option (list word_chars);
  tg_row : list T;
  gen : G;
  hist : list (nat * sentence T)
}.

(** [len(cur_stream[i][0])] *)
Definition remaining (s : sentence T) : Z := Z.of_nat (length (fst s)).

(** Line 32. *)
Definition how_many (f : fill) (s : sentence T) : Z :=
  Z.min (remaining s - 1) (Z.of_nat num_steps - cur_pos f).

(** Lines 32-45, for the lane content [s].  The row of [char_inputs] is
    [Some] exactly when [max_word_length is not None] (lines 16-19), so
    the two tests of lines 36 and 44 are tests on [ch_row]. *)
Definition copy (f : fill) (s : sentence T) : outcome fill :=
  let how_many := how_many f s in
  let next_pos := cur_pos f + how_many in
  inputs ← Py.assign (in_row f) (cur_pos f) next_pos (Py.upto (fst s) how_many);
  char_inputs ←
    match ch_row f with
    | Some row =>
        match snd s with
        | Some cs =>
            Some <$> Py.assign row (cur_pos f) next_pos (Py.upto cs how_many)
        | None => Raise TypeError
        end
    | None => Ok None
    end;
  targets ← Py.assign (tg_row f) (cur_pos f) next_pos
               (Py.slice (fst s) 1 (how_many + 1));
  let chars :=
    match ch_row f with
    | Some _ => (fun cs => Py.from cs how_many) <$> snd s
    | None => snd s
    end in
  Ok {| cur_pos := next_pos;
        cur := Some (Py.from (fst s) how_many, chars);
        in_row := inputs; ch_row := char_inputs; tg_row := targets;
        gen := gen f; hist := hist f |}.

(** Lines 26-30: [cur_stream[i] = list(next(generator))], with the [break]
    on [StopIteration] as [Ok None]. *)
Definition pull (i : nat) (f : fill) : outcome (option (fill * sentence T)) :=
  match gen_next (gen f) with
  | Yielded s g' =>
      Ok (Some ({| cur_pos := cur_pos f; cur := Some s;
                   in_row := in_row f; ch_row := ch_row f;
                   tg_row := tg_row f; gen := g';
                   hist := hist f ++ [(i, s)] |}, s))
  | Exhausted => Ok None
  | Failed e => if decide (e = StopIteration) then Ok None else Raise e
  end.

(** Lines 25-30: the lane to copy from, after a pull when one is due. *)
Definition refill (i : nat) (f : fill) : outcome (option (fill * sentence T)) :=
  match cur f with
  | Some s => if remaining s <=? 1 then pull i f else Ok (Some (f, s))
  | None => pull i f
  end.

(** One iteration of the [while] loop at a cursor below [num_steps]:
    [None] when it left the loop by [break]. *)
Definition iteration (i : nat) (f : fill) : outcome (option fill) :=
  r ← refill i f;
  match r with
  | Some (f1, s) => Some <$> copy f1 s
  | None => Ok None
  end.

(** Lines 24-45: the [while] loop.  The boolean is [True] when the loop
    was left by the [break] that sets [no_more_data]. *)
Fixpoint fill_lane (fuel : nat) (i : nat) (f : fill) : outcome (fill * bool) :=
  match fuel with
  | O => OutOfFuel
  | S fuel' =>
      if cur_pos f <? Z.of_nat num_steps then
        r ← iteration i f;
        match r with
        | Some f' => fill_lane fuel' i f'
        | None => Ok (f, true)
        end
      else Ok (f, false)
  end.

(** The state of the generator [_get_batch] between two batches:
    [cur_stream], the sentence generator it pulls from, and the history of
    pulls. *)
Record assembler : Type := Assembler {
  cur_stream : list (lane T);
  generator : G;
  history : list (nat * sentence T)
}.

(** Line 11: the state before the first batch. *)
Definition start (g : G) : assembler :=
  {| cur_stream := replicate batch_size None; generator := g; history := [] |}.

(** Row [i] of the zero-filled arrays of lines 15-21. *)
Definition zero_row : list T := replicate num_steps zero.
Definition zero_chars : option (list word_chars) :=
  (fun w => replicate num_steps (replicate w 0)) <$> max_word_length.

(** The rows of the arrays and the lanes, for the lanes done so far. *)
Record rows : Type := Rows {
  inputs : list (list T);
  char_inputs : list (list word_chars);
  targets : list (list T);
  lanes : list (lane T);
  no_more_data : bool
}.

(** Lines 22-45: the [for] loop, over the lanes [i], [i+1], ... that are
    still to fill.  [cur_stream] has [batch_size] lanes, so that walking
    down the list is [for i in range(batch_size)]. *)
Fixpoint fill_lanes (fuel : nat) (i : nat) (todo : list (lane T))
    (g : G) (h : list (nat * sentence T)) (done : rows)
  : outcome (rows * G * list (nat * sentence T)) :=
  match todo with
  | [] => Ok (done, g, h)
  | c :: todo' =>
      r ← fill_lane fuel i
            {| cur_pos := 0; cur := c; in_row := zero_row;
               ch_row := zero_chars; tg_row := zero_row; gen := g; hist := h |};
      let '(f, stopped) := r in
      fill_lanes fuel (S i) todo' (gen f) (hist f)
        {| inputs := inputs done ++ [in_row f];
           char_inputs := char_inputs done ++ from_option (fun r => [r]) [] (ch_row f);
           targets := targets done ++ [tg_row f];
           lanes := lanes done ++ [cur f];
           no_more_data := no_more_data done || stopped |}
  end.

(** Lines 14-55: one turn of the outer loop, that is one call of [next] on
    the generator [_get_batch] returns. *)
Definition _get_batch (fuel : nat) (st : assembler)
  : step (batch T) assembler :=
  match fill_lanes fuel 0 (cur_stream st) (generator st) (history st)
          {| inputs := []; char_inputs := []; targets := []; lanes := [];
             no_more_data := false |} with
  | Ok (r, g, h) =>
      if no_more_data r then Stop
      else Yield {| token_ids := inputs r;
                    tokens_characters :=
                      (fun _ => char_inputs r) <$> max_word_length;
                    next_token_id := targets r |}
                 {| cur_stream := lanes r; generator := g; history := h |}
  | Raise e => Throw e
  | OutOfFuel => Diverge
  end.

(** The first [n] batches, and the state after them. *)
Fixpoint emitted (n : nat) (fuel : nat) (st : assembler) : list (batch T) :=
  match n with
  | O => []
  | S n' =>
      match _get_batch fuel st with
      | Yield b st' => b :: emitted n' fuel st'
      | _ => []
      end
  end.

(** The generator after [n] sentences, and a property of all the
    sentences a generator can yield. *)
Fixpoint gen_after (n : nat) (g : G) : option G :=
  match n with
  | O => Some g
  | S n' =>
      match gen_next g with
      | Yielded _ g' => gen_after n' g'
      | _ => None
      end
  end.

(** [pulls_from g new g']: from the state [g] the generator yields the
    sentences [new], in this order, and is then in the state [g']. *)
Inductive pulls_from : G -> list (sentence T) -> G -> Prop :=
  | pulls_none (g : G) : pulls_from g [] g
  | pulls_more (g g' g'' : G) (s : sentence T) (new : list (sentence T)) :
      gen_next g = Yielded s g' -> pulls_from g' new g'' ->
      pulls_from g (s :: new) g''.

Definition yields_only (P : sentence T -> Prop) (g : G) : Prop :=
  forall n g' s g'',
    gen_after n g = Some g' -> gen_next g' = Yielded s g'' -> P s.

Fixpoint after (n : nat) (fuel : nat) (st : assembler) : option assembler :=
  match n with
  | O => Some st
  | S n' =>
      match _get_batch fuel st with
      | Yield _ st' => after n' fuel st'
      | _ => None
      end
  end.

End Assembler.

Arguments Fill {T G}.
Arguments cur_pos {T G}.
Arguments cur {T G}.
Arguments in_row {T G}.
Arguments ch_row {T G}.
Arguments tg_row {T G}.
Arguments gen {T G}.
Arguments hist {T G}.
Arguments Assembler {T G}.
Arguments cur_stream {T G}.
Arguments generator {T G}.
Arguments history {T G}.
Arguments Rows {T}.
Arguments inputs {T}.
Arguments char_inputs {T}.
Arguments targets {T}.
Arguments lanes {T}.
Arguments no_more_data {T}.

(** A finite list of sentences as a generator. *)
Definition list_next {T} (l : list (sentence T)) : pulled T (list (sentence T)) :=
  match l with
  | s :: l' => Yielded s l'
  | [] => Exhausted
  end.

(** ** The single-direction dataset [LMDataset] *)

(** What the dataset logs with [logging.info]. *)
Inductive log_event : Type :=
  | Found (n : nat) (filepattern : string)
  | Loading (shard_name : string)
  | Loaded (n : nat).

(** [l.pop()]: the last element and the list without it, [None] on the
    empty list (Python raises [IndexError]). *)
Definition pop {A} (l : list A) : option (A * list A) :=
  match reverse l with
  | x :: r => Some (x, reverse r)
  | [] => None
  end.

Section Dataset.

(** The world around the dataset: the state [R] of the module [random] with
    [random.shuffle], the files ([None]: [open] raises), the built-ins
    [str.split] and [' '.join], and the vocabulary adapter, whose
    [encode_chars] is optional. *)
Context {R : Type} (shuffle : forall A : Type, R -> list A -> list A * R).
Variable files : string -> option (list string).
Variable split : string -> list string.
Variable join : list string -> string.
Variable vocab_encode : string -> bool -> list Z.
Variable vocab_encode_chars : option (string -> bool -> list word_chars).
Variable vocab_max_word_length : nat.

(** The global state the methods act on. *)
Record world : Type := World {
  rng : R;
  log : list log_event
}.

Record LMDataset : Type := Dataset {
  _all_shards : list string;
  _shards_to_choose : list string;
  _reverse : bool;
  _test : bool;
  _shuffle_on_load : bool;
  _use_char_inputs : bool;
  _ids : list (sentence Z);
  _i : nat;
  _nids : nat
}.

(** Assignments to the fields of [self]. *)
Definition set_all_shards (d : LMDataset) (l : list string) : LMDataset :=
  {| _all_shards := l; _shards_to_choose := _shards_to_choose d;
     _reverse := _reverse d; _test := _test d;
     _shuffle_on_load := _shuffle_on_load d;
     _use_char_inputs := _use_char_inputs d;
     _ids := _ids d; _i := _i d; _nids := _nids d |}.

Definition set_shards_to_choose (d : LMDataset) (l : list string) : LMDataset :=
  {| _all_shards := _all_shards d; _shards_to_choose := l;
     _reverse := _reverse d; _test := _test d;
     _shuffle_on_load := _shuffle_on_load d;
     _use_char_inputs := _use_char_inputs d;
     _ids := _ids d; _i := _i d; _nids := _nids d |}.

Definition set_ids (d : LMDataset) (ids : list (sentence Z)) : LMDataset :=
  {| _all_shards := _all_shards d; _shards_to_choose := _shards_to_choose d;
     _reverse := _reverse d; _test := _test d;
     _shuffle_on_load := _shuffle_on_load d;
     _use_char_inputs := _use_char_inputs d;
     _ids := ids; _i := _i d; _nids := _nids d |}.

Definition set_cursor (d : LMDataset) (i nids : nat) : LMDataset :=
  {| _all_shards := _all_shards d; _shards_to_choose := _shards_to_choose d;
     _reverse := _reverse d; _test := _test d;
     _shuffle_on_load := _shuffle_on_load d;
     _use_char_inputs := _use_char_inputs d;
     _ids := _ids d; _i := i; _nids := nids |}.

(** A method call: the value returned or the exception raised, and the
    object and the world it leaves. *)
Definition call (A : Type) : Type := ((A + exn) * LMDataset * world)%type.

Definition info (e : log_event) (w : world) : world :=
  {| rng := rng w; log := log w ++ [e] |}.

(** Lines 78-83. *)
Definition _choose_random_shard (d : LMDataset) (w : world) : call string :=
  let '(bag, w1) :=
    if decide (length (_shards_to_choose d) = 0%nat) then
      let '(l, r) := shuffle string (rng w) (_all_shards d) in
      (l, {| rng := r; log := log w |})
    else (_shards_to_choose d, w) in
  match pop bag with
  | Some (shard_name, bag') =>
      (inl shard_name, set_shards_to_choose d bag', w1)
  | None => (inr IndexError, set_shards_to_choose d bag, w1)
  end.

(** Lines 99-121. *)
Definition _load_shard (d : LMDataset) (w : world) (shard_name : string)
  : call (list (sentence Z)) :=
  let w1 := info (Loading shard_name) w in
  match files shard_name with
  | None => (inr OSError, d, w1)
  | Some lines =>
      let sentences :=
        if _reverse d then (fun l => join (reverse (split l))) <$> lines
        else lines in
      let '(sentences, r) :=
        if _shuffle_on_load d then shuffle string (rng w1) sentences
        else (sentences, rng w1) in
      let ids := (fun l => vocab_encode l (_reverse d)) <$> sentences in
      let chars_ids :=
        match vocab_encode_chars with
        | Some enc =>
            if _use_char_inputs d
            then (fun l => Some (enc l (_reverse d))) <$> sentences
            else replicate (length ids) None
        | None => replicate (length ids) None
        end in
      (inl (zip ids chars_ids), d,
       info (Loaded (length ids)) {| rng := r; log := log w1 |})
  end.

(** Lines 86-92: the choice of the shard to load. *)
Definition next_shard (d : LMDataset) (w : world) : call string :=
  if _test d then
    match pop (_all_shards d) with
    | None => (inr StopIteration, d, w)
    | Some (shard_name, rest) => (inl shard_name, set_all_shards d rest, w)
    end
  else _choose_random_shard d w.

(** Lines 85-97. *)
Definition _load_random_shard (d : LMDataset) (w : world)
  : call (list (sentence Z)) :=
  match next_shard d w with
  | (inr e, d1, w1) => (inr e, d1, w1)
  | (inl shard_name, d1, w1) =>
      match _load_shard d1 w1 shard_name with
      | (inr e, d2, w2) => (inr e, d2, w2)
      | (inl ids, d2, w2) => (inl ids, set_cursor d2 0 (length ids), w2)
      end
  end.

(** Lines 64-75: the constructor, on the shards [glob.glob(filepattern)]
    found.  The fields that are set only once [_load_random_shard] runs
    are given empty values before. *)
Definition __init__ (found : list string) (filepattern : string)
    (test shuffle_on_load reverse : bool) (w : world) : call unit :=
  let w1 := info (Found (length found) filepattern) w in
  let d := {| _all_shards := found; _shards_to_choose := [];
              _reverse := reverse; _test := test;
              _shuffle_on_load := shuffle_on_load;
              _use_char_inputs := bool_decide (is_Some vocab_encode_chars);
              _ids := []; _i := 0; _nids := 0 |} in
  match _load_random_shard d w1 with
  | (inr e, d1, w2) => (inr e, d1, w2)
  | (inl ids, d1, w2) => (inl tt, set_ids d1 ids, w2)
  end.

(** Lines 131-136. *)
Definition max_word_length (d : LMDataset) : option nat :=
  if _use_char_inputs d then Some vocab_max_word_length else None.

(** Lines 124-129: the body of the generator [get_sentence] from one
    [yield] to the next. *)
Definition get_sentence_body (d : LMDataset) (w : world)
  : call (sentence Z) :=
  let r :=
    if decide (_i d = _nids d) then
      match _load_random_shard d w with
      | (inr e, d1, w1) => (inr e, d1, w1)
      | (inl ids, d1, w1) => (inl tt, set_ids d1 ids, w1)
      end
    else (inl tt, d, w) in
  match r with
  | (inr e, d1, w1) => (inr e, d1, w1)
  | (inl _, d1, w1) =>
      match _ids d1 !! _i d1 with
      | None => (inr IndexError, d1, w1)
      | Some ret =>
          (inl ret, set_cursor d1 (S (_i d1)) (_nids d1), w1)
      end
  end.

(** The generator object [self.get_sentence()]: the dataset and the world
    it acts on, or [None] once it has finished.  An exception that leaves
    the body finishes the generator; since Python 3.7 (PEP 479) a
    [StopIteration] that leaves the body of a generator reaches the caller
    of [next] as a [RuntimeError]. *)
Definition sentences : Type := option (LMDataset * world).

Definition get_sentence (g : sentences) : pulled Z sentences :=
  match g with
  | None => Exhausted
  | Some (d, w) =>
      match get_sentence_body d w with
      | (inl ret, d1, w1) => Yielded ret (Some (d1, w1))
      | (inr e, _, _) =>
          Failed (if decide (e = StopIteration) then RuntimeError else e)
      end
  end.

(** Lines 138-144: [next] on [self.iter_batches(batch_size, num_steps)]. *)
Definition iter_batches (num_steps : nat) (d : LMDataset) (fuel : nat)
    (st : assembler (T:=Z) (G:=sentences))
  : step (batch Z) assembler :=
  _get_batch 0 get_sentence num_steps (max_word_length d) fuel st.

(** [n] calls of [_choose_random_shard], with the names they return. *)
Fixpoint choose_many (n : nat) (d : LMDataset) (w : world)
  : list string * LMDataset * world :=
  match n with
  | O => ([], d, w)
  | S n' =>
      match _choose_random_shard d w with
      | (inl shard_name, d1, w1) =>
          let '(names, d2, w2) := choose_many n' d1 w1 in
          (shard_name :: names, d2, w2)
      | (inr _, d1, w1) => ([], d1, w1)
      end
  end.

(** [n] times [self._ids = self._load_random_shard()], up to the first
    one that raises. *)
Fixpoint load_many (n : nat) (d : LMDataset) (w : world)
  : LMDataset * world :=
  match n with
  | O => (d, w)
  | S n' =>
      match _load_random_shard d w with
      | (inl ids, d1, w1) => load_many n' (set_ids d1 ids) w1
      | (inr _, d1, w1) => (d1, w1)
      end
  end.

End Dataset.

Arguments World {R}.
Arguments rng {R}.
Arguments log {R}.

(** The shards a log says were loaded, in the order of loading. *)
Definition loading_names (l : list log_event) : list string :=
  omap (fun e => match e with Loading x => Some x | _ => None end) l.

(** ** The bidirectional composition *)




Section Bidirectional.

(** The two generators of batches that [zip] pulls from, as step functions
    on the state [S] of the two datasets and of the world they share. *)
Context {S : Type} (forward backward : S -> step (batch Z) S).


End Bidirectional.

(** * Notions of the properties *)

(** ** Provenance of tokens *)

(** The assembler does not look at the tokens it moves, so that a token can
    carry a label of the sentence it was pulled in.  [marking] is the
    generator that labels the tokens of its [k]-th sentence [s] with
    [label k s]; the zero that fills a fresh array carries no label. *)
Section Provenance.

Context {T G A : Type} (gen_next : G -> pulled T G).
Variable label : nat -> sentence T -> A.

Definition mark (k : nat) (s : sentence T) : sentence (T * option A) :=
  ((fun x => (x, Some (label k s))) <$> s.1, s.2).

Definition marking (g : G * nat) : pulled (T * option A) (G * nat) :=
  match gen_next g.1 with
  | Yielded s g' => Yielded (mark g.2 s) (g', S g.2)
  | Exhausted => Exhausted
  | Failed e => Failed e
  end.

End Provenance.

(** The sentences of a history that lane [i] pulled, in the order of the
    pulls. *)
Definition pulled_by {T : Type} (i : nat) (h : list (nat * sentence T))
  : list (sentence T) :=
  snd <$> filter (fun p => p.1 = i) h.

(** A sentence without its last token, and what a lane has still to
    deliver to [token_ids]: the rest of its sentence without the last
    token. *)
Definition but_last {A : Type} (l : list A) : list A :=
  take (length l - 1) l.

Definition undelivered {T : Type} (c : lane T) : list T :=
  match c with
  | Some s => but_last s.1
  | None => []
  end.

(** Row [i] of the [token_ids] of a list of batches, one batch after the
    other. *)
Definition lane_tokens {T : Type} (i : nat) (bs : list (batch T)) : list T :=
  concat ((fun b => default [] (token_ids b !! i)) <$> bs).

(** What the sentences lane [i] pulled owe to its [token_ids]: each
    sentence without its last token, one after the other. *)
Definition owed {T : Type} (i : nat) (h : list (nat * sentence T)) : list T :=
  concat ((fun s => but_last s.1) <$> pulled_by i h).

(** In the loop of a lane: the tokens written up to the cursor, and those
    the lane has still to deliver. *)
Definition in_flight {T G : Type} (f : fill (T:=T) (G:=G)) : list T :=
  take (Z.to_nat (cur_pos f)) (in_row f) ++ undelivered (cur f).

(** The lanes [first], [first + 1], ... between two batches: with
    [out j] the tokens lane [j] has delivered, what is delivered and what
    is still to deliver is what the sentences pulled owe. *)
Definition settled {T : Type} (out : nat -> list T) (lanes : list (lane T))
    (first : nat) (h : list (nat * sentence T)) : Prop :=
  forall j c,
    lanes !! j = Some c ->
    out (first + j)%nat ++ undelivered c = owed (first + j) h.

(** ** Invariants of the run on tokens labelled with the rank of their
    sentence *)

Section Labels.

Context {T : Type}.

(** The labels of [l] are below [K]. *)
Definition labels_below (K : nat) (l : list (T * option nat)) : Prop :=
  forall x k, x ∈ l -> x.2 = Some k -> (k < K)%nat.

(** The tokens of [l] all have the label [k]. *)
Definition labelled (k : nat) (l : list (T * option nat)) : Prop :=
  forall x, x ∈ l -> x.2 = Some k.

(** Below the cursor [c], a target next to two inputs of one sentence is
    the second of them. *)
Definition shifted (c : nat) (inp tgt : list (T * option nat)) : Prop :=
  forall t x y k z,
    (S t < c)%nat ->
    inp !! t = Some (x, Some k) -> inp !! S t = Some (y, Some k) ->
    tgt !! t = Some z ->
    z = (y, Some k).

(** A lane holds the rest of one sentence pulled before. *)
Definition lane_ok (K : nat) (c : lane (T * option nat)) : Prop :=
  forall s, c = Some s -> exists k, (k < K)%nat /\ labelled k s.1.

End Labels.

Section LabelledFill.

Context {T G : Type}.
Variable num_steps : nat.

(** The state of the loop of a lane at its test.  With one step or none
    there are no two positions in a row, and the cursor is not followed. *)
Definition fill_ok (f : fill (T:=T * option nat) (G:=G * nat)) : Prop :=
  cur_pos f <= Z.of_nat num_steps /\
  length (in_row f) = num_steps /\ length (tg_row f) = num_steps /\
  lane_ok (gen f).2 (cur f) /\
  ((num_steps <= 1)%nat \/
   0 <= cur_pos f /\
   shifted (Z.to_nat (cur_pos f)) (in_row f) (tg_row f) /\
   labels_below (gen f).2 (take (Z.to_nat (cur_pos f)) (in_row f)) /\
   (cur_pos f < Z.of_nat num_steps ->
    cur_pos f = 0 \/ forall s, cur f = Some s -> remaining s <= 1)).

(** The rows of the lanes done. *)
Definition rows_ok (r : rows (T:=T * option nat)) : Prop :=
  length (inputs r) = length (targets r) /\
  forall i row tgt,
    inputs r !! i = Some row -> targets r !! i = Some tgt ->
    length row = num_steps /\ length tgt = num_steps /\
    shifted num_steps row tgt.

(** The rows of a batch. *)
Definition batch_ok (b : batch (T * option nat)) : Prop :=
  forall i row tgt,
    token_ids b !! i = Some row -> next_token_id b !! i = Some tgt ->
    length row = num_steps /\ length tgt = num_steps /\
    shifted num_steps row tgt.

(** The state of the assembler between two batches. *)
Definition assembler_ok
    (st : assembler (T:=T * option nat) (G:=G * nat)) : Prop :=
  Forall (lane_ok (generator st).2) (cur_stream st).

End LabelledFill.

(** ** Invariants of the run on tokens labelled as coming from a short
    sentence *)

(** The label of the tokens of a sentence: whether it has one token at
    most. *)
Definition short {T : Type} (k : nat) (s : sentence T) : bool :=
  bool_decide (length s.1 <= 1)%nat.

(** No token of [l] comes from a short sentence. *)
Definition clean {T : Type} (l : list (T * option bool)) : Prop :=
  forall x, x ∈ l -> x.2 <> Some true.

(** A lane holds no token of a short sentence, unless it has one token at
    most. *)
Definition lane_clean {T : Type} (c : lane (T * option bool)) : Prop :=
  forall s, c = Some s -> clean s.1 \/ remaining s <= 1.

Definition fill_clean {T G : Type}
    (f : fill (T:=T * option bool) (G:=G)) : Prop :=
  clean (in_row f) /\ clean (tg_row f) /\ lane_clean (cur f).

Definition rows_clean {T : Type} (r : rows (T:=T * option bool)) : Prop :=
  Forall clean (inputs r) /\ Forall clean (targets r) /\
  Forall lane_clean (lanes r).

(** ** A change of token type *)

Section Renaming.

Context {T1 T2 G1 G2 : Type} (phi : T1 -> T2) (psi : G1 -> G2).

Definition map_sentence (s : sentence T1) : sentence T2 := (phi <$> s.1, s.2).

Definition map_pulled (p : pulled T1 G1) : pulled T2 G2 :=
  match p with
  | Yielded s g => Yielded (map_sentence s) (psi g)
  | Exhausted => Exhausted
  | Failed e => Failed e
  end.

Definition map_history (h : list (nat * sentence T1))
  : list (nat * sentence T2) :=
  (fun p => (p.1, map_sentence p.2)) <$> h.

Definition map_fill (f : fill (T:=T1) (G:=G1)) : fill (T:=T2) (G:=G2) :=
  {| cur_pos := cur_pos f; cur := map_sentence <$> cur f;
     in_row := phi <$> in_row f; ch_row := ch_row f;
     tg_row := phi <$> tg_row f; gen := psi (gen f);
     hist := map_history (hist f) |}.

Definition map_refilled (r : option (fill (T:=T1) (G:=G1) * sentence T1))
  : option (fill (T:=T2) (G:=G2) * sentence T2) :=
  (fun p => (map_fill p.1, map_sentence p.2)) <$> r.

Definition map_rows (r : rows (T:=T1)) : rows (T:=T2) :=
  {| inputs := fmap (M:=list) phi <$> inputs r; char_inputs := char_inputs r;
     targets := fmap (M:=list) phi <$> targets r;
     lanes := fmap (M:=option) map_sentence <$> lanes r;
     no_more_data := no_more_data r |}.

Definition map_assembler (st : assembler (T:=T1) (G:=G1))
  : assembler (T:=T2) (G:=G2) :=
  {| cur_stream := fmap (M:=option) map_sentence <$> cur_stream st;
     generator := psi (generator st);
     history := map_history (history st) |}.

Definition map_batch (b : batch T1) : batch T2 :=
  {| token_ids := fmap (M:=list) phi <$> token_ids b;
     tokens_characters := tokens_characters b;
     next_token_id := fmap (M:=list) phi <$> next_token_id b |}.

Definition map_step (s : step (batch T1) (assembler (T:=T1) (G:=G1)))
  : step (batch T2) (assembler (T:=T2) (G:=G2)) :=
  match s with
  | Yield b st => Yield (map_batch b) (map_assembler st)
  | Stop => Stop
  | Throw e => Throw e
  | Diverge => Diverge
  end.

End Renaming.

(** A batch of labelled tokens without the labels. *)
Definition erase {T A : Type} (b : batch (T * A)) : batch T := map_batch fst b.

(** ** A demonstration world *)

(** A small world to run the dataset in: two shards, a vocabulary that
    makes one token of every letter, no character inputs, and a
    [random.shuffle] that reverses. *)
Module Demo.

Definition shuffle (A : Type) (r : unit) (l : list A) : list A * unit :=
  (reverse l, r).

Definition files (name : string) : option (list string) :=
  if decide (name = "s0") then Some ["a b c"]
  else if decide (name = "s1") then Some ["d e f"; "g h"]
  else None.

Definition split (l : string) : list string := [l].
Definition join (l : list string) : string := String.concat " " l.

Definition vocab_encode (l : string) (reverse : bool) : list Z :=
  (fun a => Z.of_nat (Ascii.nat_of_ascii a))
    <$> List.filter (fun a => negb (Ascii.eqb a Ascii.Space)) (String.list_ascii_of_string l).

Definition w0 : world := {| rng := tt; log := [] |}.

Definition init (found : list string) (test : bool) : call unit :=
  __init__ shuffle files split join vocab_encode None found "s*"
    test false false w0.

(** [LMDataset.iter_batches(1, 2)] on a dataset of this world. *)
Definition batches (d : LMDataset) (fuel : nat)
    (st : assembler (T:=Z) (G:=sentences))
  : step (batch Z) assembler :=
  iter_batches shuffle files split join vocab_encode None 0 2 d fuel st.

(** A dataset outside test mode with an empty bag. *)
Definition fresh : LMDataset :=
  {| _all_shards := ["s0"; "s1"]; _shards_to_choose := [];
     _reverse := false; _test := false; _shuffle_on_load := false;
     _use_char_inputs := false; _ids := []; _i := 0; _nids := 0 |}.

(** A dataset in test mode, before any shard is loaded. *)
Definition testing : LMDataset :=
  {| _all_shards := ["s0"; "s1"]; _shards_to_choose := [];
     _reverse := false; _test := true; _shuffle_on_load := false;
     _use_char_inputs := false; _ids := []; _i := 0; _nids := 0 |}.

(** Two sentences of three tokens, and the assembler on them with one
    lane and two steps. *)
Definition source : list (sentence Z) := [([1; 2; 3], None); ([4; 5; 6], None)].

(** The state of that assembler after two batches. *)
Definition drained : assembler (T:=Z) (G:=list (sentence Z)) :=
  {| cur_stream := [Some ([6], None)]; generator := [];
     history := [(0%nat, ([1; 2; 3], None)); (0%nat, ([4; 5; 6], None))] |}.

(** The dataset and the world that the constructor leaves, in test mode,
    for the one shard [s0]. *)
Definition loaded : LMDataset :=
  {| _all_shards := []; _shards_to_choose := [];
     _reverse := false; _test := true; _shuffle_on_load := false;
     _use_char_inputs := false; _ids := [([97; 98; 99], None)];
     _i := 0; _nids := 1 |}.

Definition w1 : world :=
  {| rng := tt; log := [Found 1 "s*"; Loading "s0"; Loaded 1] |}.

End Demo.

(** * Properties *)

Lemma Yield_inj {B S : Type} (b b' : B) (s s' : S) :
  Yield b s = Yield b' s' -> b = b' /\ s = s'.
Proof. intros H. by injection H. Qed.

(** ** The bidirectional composition *)












(** ** The single-direction dataset *)

Lemma pop_snoc {A} (l : list A) (x : A) : pop (l ++ [x]) = Some (x, l).
Proof. unfold pop. by rewrite reverse_snoc, reverse_involutive. Qed.

Lemma pop_nil {A} (l : list A) : pop l = None -> l = [].
Proof.
  destruct l as [|x l] using rev_ind; [done|]. by rewrite pop_snoc.
Qed.

Lemma loading_names_app (l1 l2 : list log_event) :
  loading_names (l1 ++ l2) = loading_names l1 ++ loading_names l2.
Proof. unfold loading_names. by rewrite omap_app. Qed.

Section DatasetProperties.

Context {R : Type} (shuffle : forall A : Type, R -> list A -> list A * R).
Variable files : string -> option (list string).
Variable split : string -> list string.
Variable join : list string -> string.
Variable vocab_encode : string -> bool -> list Z.
Variable vocab_encode_chars : option (string -> bool -> list word_chars).

Local Abbreviation _choose_random_shard := (_choose_random_shard shuffle).
Local Abbreviation choose_many := (choose_many shuffle).
Local Abbreviation _load_shard :=
  (_load_shard shuffle files split join vocab_encode vocab_encode_chars).
Local Abbreviation _load_random_shard :=
  (_load_random_shard shuffle files split join vocab_encode vocab_encode_chars).
Local Abbreviation load_many :=
  (load_many shuffle files split join vocab_encode vocab_encode_chars).
Local Abbreviation __init__ :=
  (__init__ shuffle files split join vocab_encode vocab_encode_chars).
Local Abbreviation next_shard := (next_shard shuffle).

Lemma choose_from_bag (d : LMDataset) (w : world) (b : list string) (x : string) :
  _shards_to_choose d = b ++ [x] ->
  _choose_random_shard d w = (inl x, set_shards_to_choose d b, w).
Proof.
  intros Hb. unfold _choose_random_shard. rewrite Hb.
  rewrite decide_False by (rewrite length_app; simpl; lia).
  by rewrite pop_snoc.
Qed.

Lemma choose_refill (d : LMDataset) (w : world) (l : list string) (r : R) :
  _shards_to_choose d = [] ->
  shuffle string (rng w) (_all_shards d) = (l, r) ->
  _choose_random_shard d w =
    match pop l with
    | Some (x, l') =>
        (inl x, set_shards_to_choose d l', {| rng := r; log := log w |})
    | None =>
        (inr IndexError, set_shards_to_choose d l, {| rng := r; log := log w |})
    end.
Proof.
  intros Hb Hsh. unfold _choose_random_shard. rewrite Hb, Hsh.
  rewrite decide_True by done. by destruct (pop l) as [[x l']|].
Qed.

Lemma choose_many_bag (b : list string) :
  forall (d : LMDataset) (w : world),
    _shards_to_choose d = b ->
    choose_many (length b) d w = (reverse b, set_shards_to_choose d [], w).
Proof.
  induction b as [|x b IH] using rev_ind; intros d w Hb.
  - simpl. destruct d; simpl in *; by subst.
  - rewrite length_app, Nat.add_comm. simpl.
    rewrite (choose_from_bag d w b x Hb).
    rewrite (IH (set_shards_to_choose d b) w eq_refl).
    by rewrite reverse_snoc.
Qed.

Lemma load_test_shard (d : LMDataset) (w : world) (l : list string)
    (x : string) (lines : list string) :
  _test d = true -> _all_shards d = l ++ [x] -> files x = Some lines ->
  exists ids d' w',
    _load_random_shard d w = (inl ids, d', w') /\
    _all_shards d' = l /\ _test d' = true /\
    loading_names (log w') = loading_names (log w) ++ [x].
Proof.
  intros Ht Hall Hx.
  unfold _load_random_shard, next_shard, _load_shard.
  rewrite Ht, Hall, pop_snoc, Hx.
  destruct (if _shuffle_on_load (set_all_shards d l) then _ else _)
    as [sentences r].
  eexists _, _, _. split; [reflexivity|]. simpl.
  split; [done|]. split; [done|].
  rewrite !loading_names_app. simpl. by rewrite app_nil_r.
Qed.

Lemma load_test_exhausted (d : LMDataset) (w : world) :
  _test d = true -> _all_shards d = [] ->
  _load_random_shard d w = (inr StopIteration, d, w).
Proof.
  intros Ht Hall. unfold _load_random_shard, next_shard.
  by rewrite Ht, Hall.
Qed.

(** C7, as the code has it.  In test mode, when the files of all shards
    can be read, [n] loads in a row load the last [n] shards of the list
    found at construction, the last one first: the shards logged as loaded
    are the first [n] of the reversed list, and the shards that are left
    are the list without its last [n]; nothing is shuffled and nothing is
    loaded twice. *)
Theorem test_shards_last_first (n : nat) :
  forall (d : LMDataset) (w : world),
    _test d = true ->
    (forall x, x ∈ _all_shards d -> is_Some (files x)) ->
    exists d' w',
      load_many n d w = (d', w') /\
      loading_names (log w') =
        loading_names (log w) ++ take n (reverse (_all_shards d)) /\
      _all_shards d' = take (length (_all_shards d) - n) (_all_shards d).
Proof.
  induction n as [|n IH]; intros d w Ht Hfiles.
  { exists d, w. simpl. rewrite app_nil_r, Nat.sub_0_r.
    by rewrite firstn_all. }
  destruct (_all_shards d) as [|x l _] eqn:Hall using rev_ind.
  { exists d, w. cbn [load_many].
    rewrite (load_test_exhausted d w Ht Hall). simpl.
    by rewrite app_nil_r. }
  destruct (Hfiles x) as [lines Hx]; [set_solver|].
  destruct (load_test_shard d w l x lines Ht Hall Hx)
    as (ids & d1 & w1 & Hload & Hall1 & Ht1 & Hlog1).
  destruct (IH (set_ids d1 ids) w1) as (d' & w' & Hmany & Hlog & Hleft).
  { done. }
  { simpl. rewrite Hall1. intros z Hz. apply Hfiles. set_solver. }
  exists d', w'. cbn [load_many]. rewrite Hload.
  split; [done|]. simpl in Hlog, Hleft. rewrite Hall1 in Hlog, Hleft.
  split.
  - rewrite Hlog, Hlog1, reverse_snoc. simpl. by rewrite <- app_assoc.
  - rewrite Hleft, length_app, Nat.add_comm. simpl.
    by rewrite take_app_le by lia.
Qed.

(** The generator [get_sentence] of a dataset in test mode that has
    consumed its last shard: the [StopIteration] of [_load_random_shard]
    leaves the body of the generator and reaches the caller of [next] as a
    [RuntimeError]. *)
Lemma test_exhaustion_is_runtime_error (d : LMDataset) (w : world) :
  _test d = true -> _all_shards d = [] -> _i d = _nids d ->
  get_sentence shuffle files split join vocab_encode vocab_encode_chars
    (Some (d, w)) = Failed RuntimeError.
Proof.
  intros Ht Hall Hi. unfold get_sentence, get_sentence_body.
  rewrite decide_True by done.
  by rewrite (load_test_exhausted d w Ht Hall).
Qed.

Section Shuffled.

(** [random.shuffle] permutes. *)
Hypothesis shuffle_permutes :
  forall (A : Type) (r : R) (l : list A), (shuffle A r l).1 ≡ₚ l.

(** C6.  Outside test mode the shards to choose are a bag that is drawn
    from without replacement: while it is not empty a choice takes its
    last name and touches neither the other names nor the random state;
    and from an empty bag, as many choices as there are shards return
    every shard once and leave the bag empty again, the list of all shards
    being unchanged. *)
Theorem shuffle_bag_epoch (d : LMDataset) (w : world) :
  (forall b x,
     _shards_to_choose d = b ++ [x] ->
     _choose_random_shard d w = (inl x, set_shards_to_choose d b, w)) /\
  (_shards_to_choose d = [] ->
   exists names d' w',
     choose_many (length (_all_shards d)) d w = (names, d', w') /\
     names ≡ₚ _all_shards d /\
     _shards_to_choose d' = [] /\
     _all_shards d' = _all_shards d).
Proof.
  split; [intros b x; apply choose_from_bag|].
  intros Hempty.
  pose proof (shuffle_permutes string (rng w) (_all_shards d)) as Hperm.
  destruct (shuffle string (rng w) (_all_shards d)) as [l r] eqn:Hsh.
  simpl in Hperm.
  rewrite <- (Permutation_length Hperm).
  destruct l as [|x l _] using rev_ind.
  { exists [], d, w. by simpl. }
  rewrite length_app, Nat.add_comm. cbn [length Nat.add choose_many].
  rewrite (choose_refill d w _ r Hempty Hsh), pop_snoc.
  rewrite (choose_many_bag l (set_shards_to_choose d l) _ eq_refl).
  eexists _, _, _. split; [reflexivity|]. split; [|split].
  - rewrite <- Hperm, <- reverse_snoc. apply reverse_Permutation.
  - done.
  - done.
Qed.

(** C9, as the code has it.  The constructor logs the number of shards
    found and then loads a shard itself; when no shard was found this load
    raises, so that the constructor raises: [StopIteration] in test mode
    and the [IndexError] of a [pop] from an empty list otherwise.  The
    log holds the one message of the discovery. *)
Theorem no_shard_fails_in_constructor (filepattern : string)
    (test shuffle_on_load reverse : bool) (w : world) :
  exists d' w',
    __init__ [] filepattern test shuffle_on_load reverse w =
      (inr (if test then StopIteration else IndexError), d', w') /\
    log w' = log w ++ [Found 0 filepattern].
Proof.
  unfold __init__, _load_random_shard, next_shard.
  cbn [_test _all_shards length].
  destruct test.
  - eexists _, _. split; reflexivity.
  - set (d := Dataset _ _ _ _ _ _ _ _ _).
    set (w1 := info _ w).
    pose proof (shuffle_permutes string (rng w1) (_all_shards d)) as Hperm.
    destruct (shuffle string (rng w1) (_all_shards d)) as [l r] eqn:Hsh.
    simpl in Hperm. apply Permutation_nil_r in Hperm. subst l.
    rewrite (choose_refill d w1 [] r eq_refl Hsh). simpl.
    eexists _, _. split; reflexivity.
Qed.

End Shuffled.

End DatasetProperties.

Lemma bound_in_range (n k : Z) : 0 <= k <= n -> Py.bound n k = k.
Proof. unfold Py.bound. intros H. destruct (Z.ltb_spec k 0); lia. Qed.

Lemma bound_range (n k : Z) : 0 <= n -> 0 <= Py.bound n k <= n.
Proof. unfold Py.bound. intros H. destruct (Z.ltb_spec k 0); lia. Qed.

Lemma slice_window {A} (l : list A) (lo hi : Z) :
  0 <= lo <= hi ->
  Py.slice l lo hi = take (Z.to_nat (hi - lo)) (drop (Z.to_nat lo) l).
Proof.
  intros H. unfold Py.slice, Py.bound.
  destruct (Z.ltb_spec lo 0); [lia|]. destruct (Z.ltb_spec hi 0); [lia|].
  destruct (Z.le_gt_cases lo (Z.of_nat (length l))),
    (Z.le_gt_cases hi (Z.of_nat (length l))).
  - by rewrite !Z.min_l by lia.
  - rewrite (Z.min_l lo), (Z.min_r hi) by lia.
    rewrite (take_ge _ (Z.to_nat (hi - lo))) by (rewrite length_drop; lia).
    apply take_ge. rewrite length_drop. lia.
  - lia.
  - rewrite !Z.min_r by lia. rewrite Z.sub_diag, Nat2Z.id.
    rewrite (drop_ge l (length l)) by lia.
    rewrite (drop_ge l (Z.to_nat lo)) by lia. by rewrite !take_nil.
Qed.

Lemma upto_take {A} (l : list A) (k : Z) :
  0 <= k -> Py.upto l k = take (Z.to_nat k) l.
Proof.
  intros Hk. unfold Py.upto. rewrite slice_window by lia.
  by rewrite Z.sub_0_r.
Qed.

Lemma from_drop {A} (l : list A) (k : Z) :
  0 <= k -> Py.from l k = drop (Z.to_nat k) l.
Proof.
  intros Hk. unfold Py.from.
  destruct (Z.le_gt_cases k (Z.of_nat (length l))).
  - rewrite slice_window by lia. apply take_ge. rewrite length_drop. lia.
  - unfold Py.slice, Py.bound.
    destruct (Z.ltb_spec k 0); [lia|].
    destruct (Z.ltb_spec (Z.of_nat (length l)) 0); [lia|].
    rewrite (Z.min_r k) by lia. rewrite Z.min_id, Z.sub_diag, Z2Nat.inj_0.
    by rewrite (drop_ge l (Z.to_nat k)) by lia.
Qed.

Lemma shifted_take {A} (l : list A) (k : Z) :
  0 <= k -> Py.slice l 1 (k + 1) = take (Z.to_nat k) (drop 1 l).
Proof.
  intros Hk. rewrite slice_window by lia. do 2 f_equal. lia.
Qed.

Lemma assign_length {A} (row row' : list A) (lo hi : Z) (v : list A) :
  Py.assign row lo hi v = Ok row' -> length row' = length row.
Proof.
  unfold Py.assign.
  pose proof (bound_range (Z.of_nat (length row)) lo ltac:(lia)) as Hlo.
  pose proof (bound_range (Z.of_nat (length row)) hi ltac:(lia)) as Hhi.
  set (a := Py.bound _ lo) in *. set (b := Py.bound _ hi) in *.
  destruct (decide _) as [Hv|Hv].
  - intros [= <-]. rewrite !length_app, length_take, length_drop. lia.
  - destruct v as [|x [|]]; try discriminate. intros [= <-].
    rewrite !length_app, length_take, length_drop, length_replicate. lia.
Qed.

Lemma assign_window {A} (row v : list A) (c h : Z) :
  0 <= c -> 0 <= h -> c + h <= Z.of_nat (length row) ->
  length v = Z.to_nat h ->
  Py.assign row c (c + h) v =
    Ok (take (Z.to_nat c) row ++ v ++ drop (Z.to_nat (c + h)) row).
Proof.
  intros Hc Hh Hfit Hv. unfold Py.assign.
  rewrite !bound_in_range by lia.
  replace (c + h - c) with h by lia.
  rewrite decide_True by done.
  by replace (Z.to_nat c + Z.to_nat h)%nat with (Z.to_nat (c + h)) by lia.
Qed.

(** ** The batch assembler: one lane *)

Section LaneProperties.

Context {T : Type} {G : Type} (gen_next : G -> pulled T G).
Variable num_steps : nat.

Local Abbreviation copy := (copy num_steps).
Local Abbreviation pull := (pull gen_next).
Local Abbreviation refill := (refill gen_next).
Local Abbreviation iteration := (iteration gen_next num_steps).
Local Abbreviation fill_lane := (fill_lane gen_next num_steps).
Local Abbreviation yields_only := (yields_only gen_next).

Local Abbreviation fill := (@fill T G).
Local Abbreviation how_many := (how_many num_steps).

Lemma copy_Ok (f f' : fill) (s : sentence T) :
  copy f s = Ok f' ->
  cur_pos f' = cur_pos f + how_many f s /\
  cur f' = Some (Py.from (fst s) (how_many f s),
                 match ch_row f with
                 | Some _ => (fun cs => Py.from cs (how_many f s)) <$> snd s
                 | None => snd s
                 end) /\
  Py.assign (in_row f) (cur_pos f) (cur_pos f + how_many f s)
    (Py.upto (fst s) (how_many f s)) = Ok (in_row f') /\
  Py.assign (tg_row f) (cur_pos f) (cur_pos f + how_many f s)
    (Py.slice (fst s) 1 (how_many f s + 1)) = Ok (tg_row f') /\
  gen f' = gen f /\ hist f' = hist f.
Proof.
  unfold copy. intros H.
  destruct (Py.assign (in_row f) _ _ _) as [inputs| |]; try discriminate.
  simpl in H.
  destruct (ch_row f) as [row|], (snd s) as [cs|]; simpl in H;
    try discriminate.
  - destruct (Py.assign row _ _ _) as [chars| |]; try discriminate.
    simpl in H.
    destruct (Py.assign (tg_row f) _ _ _) as [targets| |]; try discriminate.
    simpl in H. injection H as <-. by simpl.
  - destruct (Py.assign (tg_row f) _ _ _) as [targets| |]; try discriminate.
    simpl in H. injection H as <-. by simpl.
  - destruct (Py.assign (tg_row f) _ _ _) as [targets| |]; try discriminate.
    simpl in H. injection H as <-. by simpl.
Qed.

Lemma pull_Ok (i : nat) (f f1 : fill) (s : sentence T) :
  pull i f = Ok (Some (f1, s)) ->
  exists g',
    gen_next (gen f) = Yielded s g' /\
    f1 = {| cur_pos := cur_pos f; cur := Some s; in_row := in_row f;
            ch_row := ch_row f; tg_row := tg_row f; gen := g';
            hist := hist f ++ [(i, s)] |}.
Proof.
  unfold pull. intros H.
  destruct (gen_next (gen f)) as [s' g'| |e].
  - injection H as <- <-. by exists g'.
  - discriminate.
  - by destruct (decide _).
Qed.

Lemma pull_None (i : nat) (f : fill) :
  pull i f = Ok None ->
  gen_next (gen f) = Exhausted \/ gen_next (gen f) = Failed StopIteration.
Proof.
  unfold pull. intros H.
  destruct (gen_next (gen f)) as [s' g'| |e]; [discriminate|by left|].
  destruct (decide _) as [->|]; [by right|discriminate].
Qed.

Lemma refill_Ok (i : nat) (f f1 : fill) (s : sentence T) :
  refill i f = Ok (Some (f1, s)) ->
  (f1 = f /\ cur f = Some s /\ 1 < remaining s) \/
  (pull i f = Ok (Some (f1, s)) /\
   forall s0, cur f = Some s0 -> remaining s0 <= 1).
Proof.
  unfold refill. intros H.
  destruct (cur f) as [s0|] eqn:Hcur.
  - destruct (Z.leb_spec (remaining s0) 1).
    + right. split; [done|]. by intros ? [= <-].
    + left. by injection H as <- <-.
  - right. split; [done|]. by intros ? [=].
Qed.

Lemma refill_None (i : nat) (f : fill) :
  refill i f = Ok None -> pull i f = Ok None.
Proof.
  unfold refill. intros H.
  destruct (cur f) as [s0|]; [|done].
  by destruct (Z.leb_spec (remaining s0) 1).
Qed.

Lemma iteration_Ok (i : nat) (f f' : fill) :
  iteration i f = Ok (Some f') ->
  exists f1 s, refill i f = Ok (Some (f1, s)) /\ copy f1 s = Ok f'.
Proof.
  unfold iteration. intros H.
  destruct (refill i f) as [[[f1 s]|]| |]; try discriminate.
  simpl in H. destruct (copy f1 s) as [f2| |] eqn:Hc; try discriminate.
  injection H as <-. by exists f1, s.
Qed.

Lemma iteration_None (i : nat) (f : fill) :
  iteration i f = Ok None -> refill i f = Ok None.
Proof.
  unfold iteration. intros H.
  destruct (refill i f) as [[[f1 s]|]| |]; try discriminate; [|done].
  simpl in H. by destruct (copy f1 s).
Qed.

Lemma assign_terminates {A} (row : list A) (lo hi : Z) (v : list A) :
  Py.assign row lo hi v <> OutOfFuel.
Proof.
  unfold Py.assign. destruct (decide _); [done|]. by destruct v as [|x [|]].
Qed.

Lemma copy_terminates (f : fill) (s : sentence T) : copy f s <> OutOfFuel.
Proof.
  unfold copy.
  destruct (Py.assign (in_row f) _ _ _) as [inputs| |] eqn:H1; simpl;
    [|done|by apply assign_terminates in H1].
  destruct (ch_row f) as [row|], (snd s) as [cs|]; simpl; try done.
  - destruct (Py.assign row _ _ _) as [chars| |] eqn:H2; simpl;
      [|done|by apply assign_terminates in H2].
    destruct (Py.assign (tg_row f) _ _ _) as [targets| |] eqn:H3; simpl;
      [done|done|by apply assign_terminates in H3].
  - destruct (Py.assign (tg_row f) _ _ _) as [targets| |] eqn:H3; simpl;
      [done|done|by apply assign_terminates in H3].
  - destruct (Py.assign (tg_row f) _ _ _) as [targets| |] eqn:H3; simpl;
      [done|done|by apply assign_terminates in H3].
Qed.

Lemma pull_terminates (i : nat) (f : fill) : pull i f <> OutOfFuel.
Proof.
  unfold pull. destruct (gen_next (gen f)) as [s g'| |e]; [done|done|].
  by destruct (decide _).
Qed.

Lemma iteration_terminates (i : nat) (f : fill) : iteration i f <> OutOfFuel.
Proof.
  unfold iteration.
  destruct (refill i f) as [[[f1 s]|]| |] eqn:Hre; simpl; try done.
  - pose proof (copy_terminates f1 s). by destruct (copy f1 s).
  - unfold refill in Hre. destruct (cur f) as [s0|].
    + destruct (remaining s0 <=? 1); [|done]. by apply pull_terminates in Hre.
    + by apply pull_terminates in Hre.
Qed.

Lemma yields_only_next (P : sentence T -> Prop) (g g' : G) (s : sentence T) :
  yields_only P g -> gen_next g = Yielded s g' -> P s /\ yields_only P g'.
Proof.
  intros Hall Hnext. split.
  - by apply (Hall 0%nat g s g').
  - intros n g1 s1 g2 Hafter. apply (Hall (S n) g1 s1 g2).
    simpl. by rewrite Hnext.
Qed.

(** The loop ends on its own test or at a pull that found the generator
    exhausted. *)
Lemma fill_lane_flag (fuel : nat) (i : nat) :
  forall (f f' : fill) (stopped : bool),
    fill_lane fuel i f = Ok (f', stopped) ->
    if stopped
    then cur_pos f' < Z.of_nat num_steps /\ refill i f' = Ok None
    else Z.of_nat num_steps <= cur_pos f'.
Proof.
  induction fuel as [|fuel IH]; intros f f' stopped H; [discriminate|].
  simpl in H. destruct (Z.ltb_spec (cur_pos f) (Z.of_nat num_steps)).
  - destruct (iteration i f) as [[f1|]| |] eqn:Hit; try discriminate.
    + by apply IH in H.
    + injection H as <- <-. split; [done|]. by apply iteration_None.
  - by injection H as <- <-.
Qed.

(** With sentences of two tokens or more, an iteration moves the cursor
    forward and not beyond [num_steps]. *)
Lemma iteration_advances (i : nat) (f f' : fill) :
  yields_only (fun s => (2 <= length s.1)%nat) (gen f) ->
  cur_pos f < Z.of_nat num_steps ->
  iteration i f = Ok (Some f') ->
  cur_pos f < cur_pos f' <= Z.of_nat num_steps /\
  yields_only (fun s => (2 <= length s.1)%nat) (gen f').
Proof.
  intros Hgen Hc Hit.
  apply iteration_Ok in Hit as (f1 & s & Hre & Hcp).
  apply copy_Ok in Hcp as (Hpos & _ & _ & _ & Hg & _).
  rewrite Hpos, Hg. unfold how_many.
  apply refill_Ok in Hre as [(-> & _ & Hs)|[Hpull _]].
  - split; [lia|done].
  - apply pull_Ok in Hpull as (g' & Hnext & ->). simpl.
    destruct (yields_only_next _ _ _ _ Hgen Hnext) as [Hs Hgen'].
    split; [|done]. unfold remaining. lia.
Qed.

Lemma fill_lane_total (i : nat) (fuel : nat) :
  forall f : fill,
    yields_only (fun s => (2 <= length s.1)%nat) (gen f) ->
    Z.max 0 (Z.of_nat num_steps - cur_pos f) < Z.of_nat fuel ->
    fill_lane fuel i f <> OutOfFuel /\
    forall f' stopped,
      fill_lane fuel i f = Ok (f', stopped) ->
      cur_pos f <= cur_pos f' /\
      cur_pos f' <= Z.max (Z.of_nat num_steps) (cur_pos f) /\
      yields_only (fun s => (2 <= length s.1)%nat) (gen f').
Proof.
  induction fuel as [|fuel IH]; intros f Hgen Hfuel.
  { lia. }
  simpl. destruct (Z.ltb_spec (cur_pos f) (Z.of_nat num_steps)) as [Hc|Hc].
  - destruct (iteration i f) as [[f1|]| |] eqn:Hit; simpl.
    + destruct (iteration_advances i f f1 Hgen Hc Hit) as [Hadv Hgen1].
      destruct (IH f1 Hgen1 ltac:(lia)) as [Hne Hok].
      split; [done|]. intros f' stopped Hf.
      destruct (Hok f' stopped Hf) as (? & ? & ?). split; [lia|].
      split; [lia|done].
    + split; [done|]. intros f' stopped [= <- <-]. split; [lia|].
      split; [lia|done].
    + split; [done|]. done.
    + by apply iteration_terminates in Hit.
  - split; [done|]. intros f' stopped [= <- <-]. split; [lia|].
    split; [lia|done].
Qed.

End LaneProperties.

(** ** The batch assembler: one batch *)

Section BatchProperties.

Context {T : Type} (zero : T) {G : Type} (gen_next : G -> pulled T G).
Variables (num_steps : nat) (max_word_length : option nat).

Local Abbreviation fill := (@fill T G).
Local Abbreviation assembler := (@assembler T G).
Local Abbreviation copy := (copy num_steps).
Local Abbreviation pull := (pull gen_next).
Local Abbreviation refill := (refill gen_next).
Local Abbreviation iteration := (iteration gen_next num_steps).
Local Abbreviation fill_lane := (fill_lane gen_next num_steps).
Local Abbreviation fill_lanes :=
  (fill_lanes zero gen_next num_steps max_word_length).
Local Abbreviation _get_batch :=
  (_get_batch zero gen_next num_steps max_word_length).
Local Abbreviation yields_only := (yields_only gen_next).

Lemma fill_lanes_total (fuel : nat) (todo : list (lane T)) :
  forall (i : nat) (g : G) h (done : rows),
    yields_only (fun s => (2 <= length s.1)%nat) g ->
    (num_steps < fuel)%nat ->
    fill_lanes fuel i todo g h done <> OutOfFuel /\
    forall r g' h',
      fill_lanes fuel i todo g h done = Ok (r, g', h') ->
      yields_only (fun s => (2 <= length s.1)%nat) g'.
Proof.
  induction todo as [|c todo IH]; intros i g h done Hgen Hfuel.
  { simpl. split; [done|]. by intros r g' h' [= <- <- <-]. }
  simpl.
  set (f := {| cur_pos := 0; cur := c; in_row := _; ch_row := _;
               tg_row := _; gen := g; hist := h |}).
  destruct (fill_lane_total gen_next num_steps i fuel f Hgen) as [Hne Hok].
  { simpl. lia. }
  destruct (fill_lane fuel i f)
    as [[f' stopped]| |] eqn:Hf; simpl; [|done|done].
  destruct (Hok f' stopped eq_refl) as (_ & _ & Hgen').
  by apply IH.
Qed.

Lemma fill_lanes_flag (fuel : nat) (todo : list (lane T)) :
  forall (i : nat) g h (acc r : rows) g' h',
    fill_lanes fuel i todo g h acc = Ok (r, g', h') ->
    no_more_data acc = true -> no_more_data r = true.
Proof.
  induction todo as [|c todo IH]; intros i g h acc r g' h' H Hflag.
  { by injection H as <- _ _. }
  simpl in H.
  destruct (fill_lane fuel i _) as [[f' stopped]| |]; try discriminate.
  simpl in H. apply IH in H; [done|]. simpl. by rewrite Hflag.
Qed.

(** C10.  When every sentence the generator yields has two tokens or more
    and the fuel exceeds [num_steps], the assembly of a batch terminates,
    and the generator left for the next batch yields such sentences only.
    Every iteration of the loop of a lane either moves the write cursor
    forward, and not beyond [num_steps], or leaves the loop because the
    generator is exhausted, or raises; and the loop as a whole moves the
    cursor neither backward nor beyond [num_steps]. *)
Theorem fill_loop_terminates (fuel : nat) (st : assembler) :
  yields_only (fun s => (2 <= length s.1)%nat) (generator st) ->
  (num_steps < fuel)%nat ->
  _get_batch fuel st <> Diverge /\
  (forall b st',
     _get_batch fuel st = Yield b st' ->
     yields_only (fun s => (2 <= length s.1)%nat) (generator st')) /\
  (forall (i : nat) (f : fill),
     yields_only (fun s => (2 <= length s.1)%nat) (gen f) ->
     cur_pos f < Z.of_nat num_steps ->
     match iteration i f with
     | Ok (Some f') => cur_pos f < cur_pos f' <= Z.of_nat num_steps
     | Ok None =>
         gen_next (gen f) = Exhausted \/
         gen_next (gen f) = Failed StopIteration
     | Raise _ => True
     | OutOfFuel => False
     end) /\
  (forall (i : nat) (f f' : fill) (stopped : bool),
     yields_only (fun s => (2 <= length s.1)%nat) (gen f) ->
     0 <= cur_pos f <= Z.of_nat num_steps ->
     fill_lane fuel i f = Ok (f', stopped) ->
     cur_pos f <= cur_pos f' <= Z.of_nat num_steps).
Proof.
  intros Hgen Hfuel. split; [|split; [|split]].
  - unfold _get_batch.
    destruct (fill_lanes_total fuel (cur_stream st) 0 (generator st)
                (history st) (Rows [] [] [] [] false) Hgen Hfuel) as [Hne _].
    destruct (fill_lanes fuel 0 (cur_stream st) (generator st) (history st)
                (Rows [] [] [] [] false)) as [[[r g] h]| |];
      [|done|done].
    by destruct (no_more_data r).
  - unfold _get_batch. intros b st'.
    destruct (fill_lanes_total fuel (cur_stream st) 0 (generator st)
                (history st) (Rows [] [] [] [] false) Hgen Hfuel) as [_ Hok].
    destruct (fill_lanes fuel 0 (cur_stream st) (generator st) (history st)
                (Rows [] [] [] [] false)) as [[[r g] h]| |];
      [|done|done].
    destruct (no_more_data r); [done|].
    intros H. apply Yield_inj in H as [_ <-]. simpl. by eapply Hok.
  - intros i f Hf Hc.
    destruct (iteration i f) as [[f'|]| |] eqn:Hit.
    + by destruct (iteration_advances gen_next num_steps i f f' Hf Hc Hit).
    + apply iteration_None, refill_None in Hit. by apply pull_None in Hit.
    + done.
    + by apply iteration_terminates in Hit.
  - intros i f f' stopped Hf Hc Hfill.
    destruct (fill_lane_total gen_next num_steps i fuel f Hf) as [_ Hok];
      [lia|].
    destruct (Hok f' stopped Hfill) as (? & ? & _). lia.
Qed.


(** The state of a lane's loop with the lane emptied. *)
Lemma assign_nothing {A} (row : list A) (c : Z) :
  Py.assign row c c [] = Ok row.
Proof.
  unfold Py.assign. rewrite Z.sub_diag, Z2Nat.inj_0.
  rewrite decide_True by done. simpl.
  by rewrite Nat.add_0_r, take_drop.
Qed.

(** A lane whose sentence has one token left, or none, is treated as an
    empty lane: the iteration pulls the next sentence and its outcome does
    not depend on the tokens left.  And an iteration that pulls a sentence
    of one token copies nothing: the rows and the cursor are unchanged,
    and the lane is left with this one token, to be replaced in the next
    iteration. *)
Lemma short_lane_is_refilled (i : nat) (f : fill) :
  (forall s,
     cur f = Some s -> remaining s <= 1 ->
     iteration i f =
     iteration i {| cur_pos := cur_pos f; cur := None; in_row := in_row f;
                    ch_row := ch_row f; tg_row := tg_row f; gen := gen f;
                    hist := hist f |}) /\
  (forall s g' f',
     cur_pos f < Z.of_nat num_steps ->
     (forall s0, cur f = Some s0 -> remaining s0 <= 1) ->
     gen_next (gen f) = Yielded s g' ->
     remaining s = 1 ->
     iteration i f = Ok (Some f') ->
     in_row f' = in_row f /\ tg_row f' = tg_row f /\
     cur_pos f' = cur_pos f /\
     exists s', cur f' = Some s' /\ s'.1 = s.1).
Proof.
  split.
  - intros s Hs Hshort. unfold iteration, refill, pull. rewrite Hs. simpl.
    destruct (Z.leb_spec (remaining s) 1); [done|lia].
  - intros s g' f' Hc Hshort Hnext Hone Hit.
    apply iteration_Ok in Hit as (f1 & s1 & Hre & Hcp).
    apply refill_Ok in Hre as [(-> & Hs1 & Hlong)|[Hpull _]].
    { specialize (Hshort s1 Hs1). lia. }
    apply pull_Ok in Hpull as (g1 & Hnext1 & ->).
    rewrite Hnext in Hnext1. injection Hnext1 as <- <-.
    apply copy_Ok in Hcp as (Hpos & Hcur & Hin & Htg & _).
    simpl in *.
    assert (Hh : how_many num_steps
                   {| cur_pos := cur_pos f; cur := Some s; in_row := in_row f;
                      ch_row := ch_row f; tg_row := tg_row f; gen := g';
                      hist := hist f ++ [(i, s)] |} s = 0).
    { unfold how_many. simpl. lia. }
    rewrite Hh in *. rewrite Z.add_0_r in *.
    unfold Py.upto in Hin.
    assert (Hempty : forall lo, Py.slice s.1 lo lo = []).
    { intros lo. unfold Py.slice. by rewrite Z.sub_diag, Z2Nat.inj_0. }
    rewrite Hempty, assign_nothing in Hin.
    change (0 + 1) with 1 in Htg.
    rewrite Hempty, assign_nothing in Htg.
    injection Hin as <-. injection Htg as <-.
    split; [done|]. split; [done|]. split; [done|].
    eexists. split; [exact Hcur|]. simpl.
    rewrite from_drop by lia. by rewrite Z2Nat.inj_0, drop_0.
Qed.

End BatchProperties.

(** ** The assembler under a change of token type *)

Lemma slice_fmap {A B} (phi : A -> B) (l : list A) (lo hi : Z) :
  Py.slice (phi <$> l) lo hi = phi <$> Py.slice l lo hi.
Proof. unfold Py.slice. by rewrite length_fmap, fmap_take, fmap_drop. Qed.

Lemma upto_fmap {A B} (phi : A -> B) (l : list A) (k : Z) :
  Py.upto (phi <$> l) k = phi <$> Py.upto l k.
Proof. apply slice_fmap. Qed.

Lemma from_fmap {A B} (phi : A -> B) (l : list A) (k : Z) :
  Py.from (phi <$> l) k = phi <$> Py.from l k.
Proof. unfold Py.from. by rewrite slice_fmap, length_fmap. Qed.

Lemma assign_fmap {A B} (phi : A -> B) (row v : list A) (lo hi : Z) :
  Py.assign (phi <$> row) lo hi (phi <$> v) =
  fmap (M:=list) phi <$> Py.assign row lo hi v.
Proof.
  unfold Py.assign. rewrite !length_fmap.
  destruct (decide _).
  - simpl. by rewrite !fmap_app, fmap_take, fmap_drop.
  - destruct v as [|x [|]]; simpl; [done| |done].
    by rewrite !fmap_app, fmap_take, fmap_drop, fmap_replicate.
Qed.

Section Naturality.

Context {T1 T2 G1 G2 : Type} (phi : T1 -> T2) (psi : G1 -> G2).
Context (zero1 : T1) (zero2 : T2).
Context (next1 : G1 -> pulled T1 G1) (next2 : G2 -> pulled T2 G2).
Variables (num_steps : nat) (max_word_length : option nat).

Hypothesis phi_zero : phi zero1 = zero2.
Hypothesis psi_next : forall g, next2 (psi g) = map_pulled phi psi (next1 g).

Local Abbreviation map_fill := (map_fill phi psi).
Local Abbreviation map_sentence := (map_sentence phi).

Lemma copy_natural (f : fill) (s : sentence T1) :
  copy num_steps (map_fill f) (map_sentence s) =
  map_fill <$> copy num_steps f s.
Proof.
  unfold copy, how_many, remaining. simpl. rewrite length_fmap.
  rewrite upto_fmap, assign_fmap, slice_fmap, from_fmap.
  destruct (Py.assign (in_row f) _ _ _) as [inputs| |]; simpl; [|done..].
  destruct (ch_row f) as [row|], s.2 as [cs|]; simpl; try done.
  - destruct (Py.assign row _ _ _) as [chars| |]; simpl; [|done..].
    rewrite assign_fmap.
    by destruct (Py.assign (tg_row f) _ _ _) as [targets| |].
  - rewrite assign_fmap.
    by destruct (Py.assign (tg_row f) _ _ _) as [targets| |].
  - rewrite assign_fmap.
    by destruct (Py.assign (tg_row f) _ _ _) as [targets| |].
Qed.

Local Abbreviation map_refilled := (map_refilled phi psi).

Lemma pull_natural (i : nat) (f : fill) :
  pull next2 i (map_fill f) = map_refilled <$> pull next1 i f.
Proof.
  unfold pull. simpl. rewrite psi_next.
  destruct (next1 (gen f)) as [s g'| |e]; simpl; [|done|by destruct (decide _)].
  unfold map_refilled, map_fill, map_history. simpl.
  by rewrite fmap_app.
Qed.

Lemma refill_natural (i : nat) (f : fill) :
  refill next2 i (map_fill f) = map_refilled <$> refill next1 i f.
Proof.
  unfold refill. simpl. destruct (cur f) as [s|]; simpl.
  - unfold remaining. simpl. rewrite length_fmap.
    destruct (_ <=? 1); [apply pull_natural|done].
  - apply pull_natural.
Qed.

Lemma iteration_natural (i : nat) (f : fill) :
  iteration next2 num_steps i (map_fill f) =
  fmap (M:=option) map_fill <$> iteration next1 num_steps i f.
Proof.
  unfold iteration. rewrite refill_natural.
  destruct (refill next1 i f) as [[[f1 s]|]| |]; simpl; [|done..].
  rewrite copy_natural. by destruct (copy num_steps f1 s).
Qed.

Lemma fill_lane_natural (fuel : nat) (i : nat) :
  forall f : fill,
    fill_lane next2 num_steps fuel i (map_fill f) =
    (fun p => (map_fill p.1, p.2)) <$> fill_lane next1 num_steps fuel i f.
Proof.
  induction fuel as [|fuel IH]; intros f; [done|]. simpl.
  destruct (cur_pos f <? Z.of_nat num_steps); [|done].
  rewrite iteration_natural.
  destruct (iteration next1 num_steps i f) as [[f1|]| |]; simpl; [|done..].
  apply IH.
Qed.

Local Abbreviation map_rows := (map_rows phi).
Local Abbreviation map_history := (map_history phi).
Local Abbreviation map_assembler := (map_assembler phi psi).

Lemma fill_lanes_natural (fuel : nat) (todo : list (lane T1)) :
  forall (i : nat) (g : G1) h (acc : rows),
    fill_lanes zero2 next2 num_steps max_word_length fuel i
      (fmap (M:=option) map_sentence <$> todo) (psi g) (map_history h)
      (map_rows acc) =
    (fun p => (map_rows p.1.1, psi p.1.2, map_history p.2))
      <$> fill_lanes zero1 next1 num_steps max_word_length fuel i todo g h acc.
Proof.
  induction todo as [|c todo IH]; intros i g h acc; [done|].
  cbn [fmap list_fmap fill_lanes].
  set (f := {| cur_pos := 0; cur := c; in_row := zero_row zero1 num_steps;
               ch_row := zero_chars num_steps max_word_length;
               tg_row := zero_row zero1 num_steps; gen := g; hist := h |}).
  assert (Hf : {| cur_pos := 0; cur := map_sentence <$> c;
                  in_row := zero_row zero2 num_steps;
                  ch_row := zero_chars num_steps max_word_length;
                  tg_row := zero_row zero2 num_steps; gen := psi g;
                  hist := map_history h |} = map_fill f).
  { unfold map_fill, zero_row. cbn [cur_pos cur in_row ch_row tg_row gen hist f].
    by rewrite <- phi_zero, <- fmap_replicate. }
  rewrite Hf, (fill_lane_natural fuel i f).
  destruct (fill_lane next1 num_steps fuel i f) as [[f' stopped]| |];
    simpl; [|done..].
  rewrite <- IH. f_equal.
  unfold map_rows. simpl.
  rewrite !fmap_app. simpl. do 2 f_equal.
Qed.

Lemma _get_batch_natural (fuel : nat) (st : assembler) :
  _get_batch zero2 next2 num_steps max_word_length fuel (map_assembler st) =
  map_step phi psi (_get_batch zero1 next1 num_steps max_word_length fuel st).
Proof.
  unfold _get_batch. simpl.
  change (Rows [] [] [] [] false) with (map_rows (Rows [] [] [] [] false))
    at 1.
  rewrite fill_lanes_natural.
  destruct (fill_lanes zero1 next1 _ _ _ _ _ _ _ _) as [[[r g] h]| |];
    simpl; [|done..].
  by destruct (no_more_data r).
Qed.

Lemma emitted_natural (n fuel : nat) :
  forall st : assembler,
    emitted zero2 next2 num_steps max_word_length n fuel (map_assembler st) =
    map_batch phi
      <$> emitted zero1 next1 num_steps max_word_length n fuel st.
Proof.
  induction n as [|n IH]; intros st; [done|]. simpl.
  rewrite _get_batch_natural.
  destruct (_get_batch zero1 next1 _ _ _ _) as [b st'| | |]; simpl;
    [|done..].
  by rewrite IH.
Qed.

End Naturality.

(** The run on labelled tokens is the run of the program, with labels. *)
Lemma marking_erased {T G A : Type} (zero : T) (gen_next : G -> pulled T G)
    (label : nat -> sentence T -> A) (num_steps : nat)
    (max_word_length : option nat) (batch_size n fuel : nat) (g : G) :
  emitted zero gen_next num_steps max_word_length n fuel (start batch_size g) =
  erase <$> emitted (zero, None) (marking gen_next label) num_steps
              max_word_length n fuel (start batch_size (g, 0%nat)).
Proof.
  rewrite <- (emitted_natural fst fst (zero, None) zero
                (marking gen_next label) gen_next).
  - f_equal. unfold start, map_assembler. simpl. f_equal.
    by rewrite fmap_replicate.
  - done.
  - intros [g0 k]. unfold marking. simpl.
    destruct (gen_next g0) as [s g'| |e]; simpl; [|done..].
    f_equal. unfold map_sentence, mark. destruct s as [toks cs]. simpl.
    f_equal. generalize (label k (toks, cs)). intros a.
    induction toks as [|x toks IH]; [done|]. cbn. by rewrite <- IH.
Qed.

(** ** The next-token shift *)

Section Shift.

Context {T : Type}.
Implicit Types (row tgt seg : list (T * option nat)).

Lemma labelled_take (k : nat) seg (n : nat) :
  labelled k seg -> labelled k (take n seg).
Proof.
  intros H x Hx. apply H. by eapply subseteq_take.
Qed.

Lemma labelled_drop (k : nat) seg (n : nat) :
  labelled k seg -> labelled k (drop n seg).
Proof.
  intros H x Hx. apply H. by eapply subseteq_drop.
Qed.

Lemma labels_below_mono (K K' : nat) row :
  (K <= K')%nat -> labels_below K row -> labels_below K' row.
Proof. intros HK H x k Hx Hk. specialize (H x k Hx Hk). lia. Qed.

Lemma labels_below_app (K : nat) row seg :
  labels_below K row -> labels_below K seg -> labels_below K (row ++ seg).
Proof.
  intros H1 H2 x k Hx Hk. apply elem_of_app in Hx as [Hx|Hx]; eauto.
Qed.

Lemma labelled_below (k K : nat) seg :
  (k < K)%nat -> labelled k seg -> labels_below K seg.
Proof.
  intros HK H x k' Hx Hk'. rewrite (H x Hx) in Hk'. injection Hk' as <-. lia.
Qed.

Lemma shifted_mono (c c' : nat) row tgt :
  (c' <= c)%nat -> shifted c row tgt -> shifted c' row tgt.
Proof.
  intros Hc H t x y k z Ht. apply H. lia.
Qed.

(** Writing [h] tokens of one sentence at the cursor, and the [h] tokens
    after its first as targets, keeps the rows shifted when the sentence
    is none of those written before. *)
Lemma shifted_extend (c h K k : nat) row tgt seg rest1 rest2 :
  shifted c row tgt ->
  labels_below K (take c row) ->
  labelled k seg -> (K <= k)%nat ->
  (c <= length row)%nat -> (c <= length tgt)%nat ->
  (h < length seg)%nat ->
  shifted (c + h)
    (take c row ++ take h seg ++ rest1)
    (take c tgt ++ take h (drop 1 seg) ++ rest2).
Proof.
  intros Hsh Hbelow Hlab HK Hrow Htgt Hseg t x y k' z Ht Hx Hy Hz.
  assert (Hlen1 : length (take c row) = c) by (rewrite length_take; lia).
  assert (Hlen2 : length (take c tgt) = c) by (rewrite length_take; lia).
  assert (Hlen3 : length (take h seg) = h) by (rewrite length_take; lia).
  assert (Hlen4 : length (take h (drop 1 seg)) = h).
  { rewrite length_take, length_drop. lia. }
  destruct (decide (S t < c)%nat) as [Hlt|Hge].
  - rewrite lookup_app_l, lookup_take_lt in Hx, Hy, Hz by lia.
    by apply (Hsh t x y k' z).
  - destruct (decide (S t = c)) as [Heq|Hne].
    + exfalso.
      rewrite lookup_app_l in Hx by lia.
      rewrite lookup_app_r, Hlen1 in Hy by lia.
      rewrite lookup_app_l in Hy by lia.
      apply list_elem_of_lookup_2 in Hx, Hy.
      specialize (Hbelow _ k' Hx eq_refl).
      pose proof (labelled_take k seg h Hlab _ Hy) as Hk.
      simpl in Hk. injection Hk as ->. lia.
    + rewrite lookup_app_r, Hlen1 in Hx, Hy by lia.
      rewrite lookup_app_r, Hlen2 in Hz by lia.
      rewrite lookup_app_l in Hx, Hy, Hz by lia.
      rewrite lookup_take_lt in Hx, Hy, Hz by lia.
      rewrite lookup_drop in Hz.
      replace (1 + (t - c))%nat with (S t - c)%nat in Hz by lia.
      rewrite Hy in Hz. by injection Hz as <-.
Qed.

End Shift.

Lemma slice_subseteq {A} (l : list A) (lo hi : Z) : Py.slice l lo hi ⊆ l.
Proof.
  unfold Py.slice. etrans; [apply subseteq_take|apply subseteq_drop].
Qed.

Lemma slice_nil {A} (lo hi : Z) : Py.slice (@nil A) lo hi = [].
Proof. unfold Py.slice. by rewrite drop_nil, take_nil. Qed.

Section LabelledRun.

Context {T G : Type} (gen_next : G -> pulled T G).
Variable num_steps : nat.

Local Abbreviation rank := (fun (k : nat) (_ : sentence T) => k).
Local Abbreviation next := (marking gen_next rank).
Local Abbreviation fill := (@fill (T * option nat) (G * nat)).
Local Abbreviation copy := (copy (T:=T * option nat) (G:=G * nat) num_steps).
Local Abbreviation how_many :=
  (how_many (T:=T * option nat) (G:=G * nat) num_steps).
Local Abbreviation iteration := (iteration next num_steps).
Local Abbreviation fill_lane := (fill_lane next num_steps).
Local Abbreviation fill_ok := (fill_ok (T:=T) (G:=G) num_steps).

Lemma mark_labelled (k : nat) (s : sentence T) : labelled k (mark rank k s).1.
Proof.
  intros x Hx. unfold mark in Hx. simpl in Hx.
  apply list_elem_of_fmap in Hx as (y & -> & _). done.
Qed.

Lemma lane_ok_mono (K K' : nat) (c : lane (T * option nat)) :
  (K <= K')%nat -> lane_ok K c -> lane_ok K' c.
Proof.
  intros HK H s Hs. destruct (H s Hs) as (k & Hk & Hlab).
  exists k. split; [lia|done].
Qed.

Lemma pull_marked (i : nat) (f f1 : fill) (s : sentence (T * option nat)) :
  pull next i f = Ok (Some (f1, s)) ->
  labelled (gen f).2 s.1 /\ (gen f1).2 = S (gen f).2 /\
  cur_pos f1 = cur_pos f /\ in_row f1 = in_row f /\ tg_row f1 = tg_row f.
Proof.
  intros H. apply pull_Ok in H as (g' & Hnext & ->). simpl.
  unfold marking in Hnext.
  destruct (gen_next (gen f).1) as [s0 g0| |e]; try discriminate.
  injection Hnext as <- <-. split; [apply mark_labelled|done].
Qed.

(** Lines 32-45 on a sentence that has no token. *)
Lemma assign_backward {A} (row : list A) (c : Z) :
  0 <= c < Z.of_nat (length row) -> (2 <= length row)%nat ->
  (1 <= c /\ Py.assign row c (c + -1) [] = Ok row) \/
  (c = 0 /\ Py.assign row c (c + -1) [] = Raise ValueError).
Proof.
  intros Hc HN. unfold Py.assign.
  rewrite (bound_in_range _ c) by lia.
  destruct (Z.le_gt_cases 1 c) as [H1|H1].
  - left. split; [done|]. rewrite bound_in_range by lia.
    replace (Z.to_nat (c + -1 - c)) with 0%nat by lia.
    rewrite decide_True by done. simpl.
    by rewrite Nat.add_0_r, take_drop.
  - right. split; [lia|]. unfold Py.bound.
    destruct (Z.ltb_spec (c + -1) 0); [|lia].
    rewrite decide_False; [done|]. simpl. lia.
Qed.

Lemma copy_none (f1 f' : fill) (s : sentence (T * option nat)) :
  copy f1 s = Ok f' ->
  remaining s = 0 ->
  0 <= cur_pos f1 < Z.of_nat num_steps ->
  length (in_row f1) = num_steps -> length (tg_row f1) = num_steps ->
  (2 <= num_steps)%nat ->
  1 <= cur_pos f1 /\ cur_pos f' = cur_pos f1 - 1 /\
  in_row f' = in_row f1 /\ tg_row f' = tg_row f1 /\
  (exists cs, cur f' = Some ([], cs)) /\ gen f' = gen f1.
Proof.
  intros Hcp Hrem Hc Hlen Hlen' HN.
  apply copy_Ok in Hcp as (Hpos & Hcur & Hin & Htg & Hg & _).
  assert (Hs : s.1 = []).
  { unfold remaining in Hrem. destruct s.1; [done|simpl in Hrem; lia]. }
  assert (Hh : how_many f1 s = -1).
  { unfold how_many. lia. }
  rewrite Hh in *. rewrite Hs in *.
  unfold Py.upto, Py.from in *. rewrite slice_nil in *.
  destruct (assign_backward (in_row f1) (cur_pos f1)) as [[H1 Hin']|[_ Hin']];
    [lia|lia| |congruence].
  destruct (assign_backward (tg_row f1) (cur_pos f1)) as [[_ Htg']|[_ Htg']];
    [lia|lia| |congruence].
  rewrite Hin' in Hin. rewrite Htg' in Htg.
  injection Hin as <-. injection Htg as <-.
  rewrite Hpos, Hg. split; [done|]. split; [lia|]. split; [done|].
  split; [done|]. split; [by eexists|done].
Qed.

(** Lines 32-45 on a sentence of one token. *)
Lemma copy_one (f1 f' : fill) (s : sentence (T * option nat)) :
  copy f1 s = Ok f' ->
  remaining s = 1 -> cur_pos f1 < Z.of_nat num_steps ->
  cur_pos f' = cur_pos f1 /\ in_row f' = in_row f1 /\
  tg_row f' = tg_row f1 /\ (exists cs, cur f' = Some (s.1, cs)) /\
  gen f' = gen f1.
Proof.
  intros Hcp Hrem Hc.
  apply copy_Ok in Hcp as (Hpos & Hcur & Hin & Htg & Hg & _).
  assert (Hh : how_many f1 s = 0) by (unfold how_many; lia).
  rewrite Hh in *. rewrite Z.add_0_r in *.
  assert (Hempty : forall lo, Py.slice s.1 lo lo = []).
  { intros lo. unfold Py.slice. by rewrite Z.sub_diag, Z2Nat.inj_0. }
  unfold Py.upto in Hin. change (0 + 1) with 1 in Htg.
  rewrite Hempty, assign_nothing in Hin, Htg.
  injection Hin as <-. injection Htg as <-.
  rewrite from_drop, Z2Nat.inj_0, drop_0 in Hcur by lia.
  split; [done|]. split; [done|]. split; [done|]. split; [by eexists|done].
Qed.

(** Lines 32-45 on a sentence of two tokens or more, none of whose tokens
    was written before the cursor. *)
Lemma copy_long (f1 f' : fill) (s : sentence (T * option nat)) (k K : nat) :
  copy f1 s = Ok f' ->
  2 <= remaining s ->
  0 <= cur_pos f1 < Z.of_nat num_steps ->
  length (in_row f1) = num_steps -> length (tg_row f1) = num_steps ->
  shifted (Z.to_nat (cur_pos f1)) (in_row f1) (tg_row f1) ->
  labels_below K (take (Z.to_nat (cur_pos f1)) (in_row f1)) ->
  labelled k s.1 -> (K <= k)%nat -> (k < (gen f1).2)%nat ->
  (K <= (gen f1).2)%nat ->
  fill_ok f'.
Proof.
  intros Hcp Hrem Hc Hlen Hlen' Hsh Hbelow Hlab HK Hk HK'.
  apply copy_Ok in Hcp as (Hpos & Hcur & Hin & Htg & Hg & _).
  pose proof (assign_length _ _ _ _ _ Hin) as Hlin.
  pose proof (assign_length _ _ _ _ _ Htg) as Hltg.
  unfold remaining in Hrem.
  set (h := how_many f1 s) in *.
  assert (Hh : 1 <= h <= Z.of_nat (length s.1) - 1 /\
               cur_pos f1 + h <= Z.of_nat num_steps /\
               (cur_pos f1 + h < Z.of_nat num_steps ->
                h = Z.of_nat (length s.1) - 1)).
  { unfold h, how_many, remaining. lia. }
  destruct Hh as (Hh1 & Hh2 & Hh3).
  rewrite upto_take in Hin by lia. rewrite shifted_take in Htg by lia.
  rewrite assign_window in Hin, Htg;
    [|lia|lia|lia|rewrite length_take, ?length_drop; lia
     |lia|lia|lia|rewrite length_take, ?length_drop; lia].
  injection Hin as Hin. injection Htg as Htg.
  unfold fill_ok. rewrite Hpos, Hg, Hcur, Hlin, Hltg.
  split; [lia|]. split; [done|]. split; [done|]. split.
  { intros s' [= <-]. exists k. split; [done|]. simpl.
    intros x Hx. apply Hlab. by eapply slice_subseteq. }
  right. split; [lia|].
  rewrite <- Hin, <- Htg.
  replace (Z.to_nat (cur_pos f1 + h))
    with (Z.to_nat (cur_pos f1) + Z.to_nat h)%nat by lia.
  split; [|split].
  - eapply shifted_extend; try done; lia.
  - rewrite app_assoc, take_app_length'.
    2:{ rewrite length_app, !length_take. lia. }
    apply labels_below_app.
    + by apply (labels_below_mono K).
    + eapply labelled_below; [exact Hk|]. by apply labelled_take.
  - intros Hlt. right. intros s' [= <-]. unfold remaining. simpl.
    rewrite from_drop, length_drop by lia. lia.
Qed.

(** What lines 32-45 do to the cursor, the lengths and the labels,
    whatever the sentence. *)
Lemma copy_any (f1 f' : fill) (s : sentence (T * option nat)) (k : nat) :
  copy f1 s = Ok f' ->
  labelled k s.1 ->
  cur_pos f' <= Z.of_nat num_steps /\
  length (in_row f') = length (in_row f1) /\
  length (tg_row f') = length (tg_row f1) /\
  gen f' = gen f1 /\
  exists s', cur f' = Some s' /\ labelled k s'.1.
Proof.
  intros Hcp Hlab.
  apply copy_Ok in Hcp as (Hpos & Hcur & Hin & Htg & Hg & _).
  split; [rewrite Hpos; unfold how_many; lia|].
  split; [by eapply assign_length|]. split; [by eapply assign_length|].
  split; [done|]. eexists. split; [exact Hcur|]. simpl.
  intros x Hx. apply Hlab. by eapply slice_subseteq.
Qed.

(** Lines 25-30 on labelled tokens: the sentence to copy from is the rest
    of an earlier sentence, of two tokens or more, or a sentence just
    pulled, that has the next rank. *)
Lemma refill_marked (i : nat) (f f1 : fill) (s : sentence (T * option nat)) :
  refill next i f = Ok (Some (f1, s)) ->
  lane_ok (gen f).2 (cur f) ->
  cur_pos f1 = cur_pos f /\ in_row f1 = in_row f /\ tg_row f1 = tg_row f /\
  ((f1 = f /\ cur f = Some s /\ 1 < remaining s /\
    exists k, (k < (gen f).2)%nat /\ labelled k s.1) \/
   ((forall s0, cur f = Some s0 -> remaining s0 <= 1) /\
    labelled (gen f).2 s.1 /\ (gen f1).2 = S (gen f).2)).
Proof.
  intros Hre Hlane.
  apply refill_Ok in Hre as [(-> & Hs & Hlong)|[Hpull Hshort]].
  - split; [done|]. split; [done|]. split; [done|]. left.
    split; [done|]. split; [done|]. split; [done|]. by apply Hlane.
  - apply pull_marked in Hpull as (Hlab & Hg & Hc & Hin & Htg).
    split; [done|]. split; [done|]. split; [done|]. by right.
Qed.

Lemma labels_below_take (K : nat) (row : list (T * option nat)) (n m : nat) :
  (n <= m)%nat -> labels_below K (take m row) -> labels_below K (take n row).
Proof.
  intros Hnm H x k Hx. apply H.
  replace n with (n `min` m)%nat in Hx by lia.
  rewrite <- take_take in Hx. by eapply subseteq_take.
Qed.

(** An iteration keeps the state of the loop in order, and ranks only
    grow. *)
Lemma iteration_ok (i : nat) (f f' : fill) :
  fill_ok f -> cur_pos f < Z.of_nat num_steps ->
  iteration i f = Ok (Some f') ->
  fill_ok f' /\ ((gen f).2 <= (gen f').2)%nat.
Proof.
  intros (Hle & Hlen & Hlen' & Hlane & Hinv) Hc Hit.
  apply iteration_Ok in Hit as (f1 & s & Hre & Hcp).
  destruct (refill_marked i f f1 s Hre Hlane)
    as (Hc1 & Hin1 & Htg1 & Hcases).
  assert (Hlabel : exists k, labelled k s.1 /\ (k < (gen f1).2)%nat /\
                             ((gen f).2 <= (gen f1).2)%nat).
  { destruct Hcases as [(-> & _ & _ & k & Hk & Hlab)|(_ & Hlab & Hg)].
    - exists k. split; [done|]. split; [done|lia].
    - exists (gen f).2. split; [done|]. rewrite Hg. split; lia. }
  destruct Hlabel as (k & Hlab & Hk & Hmono).
  destruct (copy_any f1 f' s k Hcp Hlab)
    as (Hle' & Hl1 & Hl2 & Hg' & s' & Hcur' & Hlab').
  split; [|by rewrite Hg'].
  destruct (decide (num_steps <= 1)%nat) as [Hsmall|Hbig].
  { unfold fill_ok. rewrite Hl1, Hl2, Hin1, Htg1, Hg', Hcur'.
    split; [done|]. split; [done|]. split; [done|].
    split; [|by left]. intros ? [= <-]. by exists k. }
  destruct Hinv as [?|(H0 & Hsh & Hbelow & Hfresh)]; [lia|].
  destruct Hcases
    as [(-> & Hs & Hlong & k0 & Hk0 & Hlab0)|(Hshort & HlabK & Hg)].
  - destruct (Hfresh Hc) as [Hzero|Hshort'].
    2:{ specialize (Hshort' s Hs). lia. }
    apply (copy_long f f' s k0 k0); try done; try lia.
    rewrite Hzero. intros x k' Hx. by apply elem_of_nil in Hx.
  - assert (Hrem : 2 <= remaining s \/ remaining s = 1 \/ remaining s = 0)
      by (unfold remaining; lia).
    destruct Hrem as [Hrem|[Hrem|Hrem]].
    + apply (copy_long f1 f' s (gen f).2 (gen f).2); try done; try lia.
      * by rewrite Hin1.
      * by rewrite Htg1.
      * by rewrite Hc1, Hin1, Htg1.
      * by rewrite Hc1, Hin1.
    + destruct (copy_one f1 f' s Hcp Hrem ltac:(lia))
        as (Hpos & Hin & Htg & (cs & Hcur) & _).
      unfold fill_ok.
      rewrite Hpos, Hin, Htg, Hc1, Hin1, Htg1, Hg', Hg, Hcur.
      split; [done|]. split; [done|]. split; [done|]. split.
      { intros ? [= <-]. exists (gen f).2. split; [lia|done]. }
      right. split; [done|]. split; [done|]. split.
      { by apply (labels_below_mono (gen f).2); [lia|]. }
      intros _. right. intros ? [= <-]. unfold remaining in *. simpl. lia.
    + destruct (copy_none f1 f' s Hcp Hrem)
        as (H1 & Hpos & Hin & Htg & (cs & Hcur) & _);
        [lia|by rewrite Hin1|by rewrite Htg1|lia|].
      unfold fill_ok.
      rewrite Hpos, Hin, Htg, Hc1, Hin1, Htg1, Hg', Hg, Hcur.
      split; [lia|]. split; [done|]. split; [done|]. split.
      { intros ? [= <-]. exists (gen f).2. split; [lia|].
        intros x Hx. by apply elem_of_nil in Hx. }
      right. split; [lia|]. split.
      { apply (shifted_mono (Z.to_nat (cur_pos f))); [lia|done]. }
      split.
      { apply (labels_below_mono (gen f).2); [lia|].
        apply (labels_below_take _ _ _ (Z.to_nat (cur_pos f))); [lia|done]. }
      intros _. right. intros ? [= <-]. unfold remaining. simpl. lia.
Qed.

Lemma fill_lane_ok (i : nat) (fuel : nat) :
  forall (f f' : fill) (stopped : bool),
    fill_ok f ->
    fill_lane fuel i f = Ok (f', stopped) ->
    fill_ok f' /\ ((gen f).2 <= (gen f').2)%nat.
Proof.
  induction fuel as [|fuel IH]; intros f f' stopped Hok H; [discriminate|].
  simpl in H. destruct (Z.ltb_spec (cur_pos f) (Z.of_nat num_steps)).
  - destruct (iteration i f) as [[f1|]| |] eqn:Hit; try discriminate.
    + destruct (iteration_ok i f f1 Hok ltac:(done) Hit) as [Hok1 Hm1].
      destruct (IH f1 f' stopped Hok1 H) as [Hok' Hm']. split; [done|lia].
    + by injection H as <- <-.
  - by injection H as <- <-.
Qed.

End LabelledRun.

Section LabelledBatches.

Context {T G : Type} (zero : T) (gen_next : G -> pulled T G).
Variables (num_steps : nat) (max_word_length : option nat).

Local Abbreviation rank := (fun (k : nat) (_ : sentence T) => k).
Local Abbreviation next := (marking gen_next rank).
Local Abbreviation fill := (@fill (T * option nat) (G * nat)).
Local Abbreviation assembler := (@assembler (T * option nat) (G * nat)).
Local Abbreviation fill_lane := (fill_lane next num_steps).
Local Abbreviation fill_lanes :=
  (fill_lanes (zero, None) next num_steps max_word_length).
Local Abbreviation _get_batch :=
  (_get_batch (zero, None) next num_steps max_word_length).
Local Abbreviation emitted :=
  (emitted (zero, None) next num_steps max_word_length).
Local Abbreviation fill_ok := (fill_ok (T:=T) (G:=G) num_steps).
Local Abbreviation rows_ok := (rows_ok (T:=T) num_steps).
Local Abbreviation batch_ok := (batch_ok (T:=T) num_steps).
Local Abbreviation assembler_ok := (assembler_ok (T:=T) (G:=G)).

Lemma fill_lanes_ok (fuel : nat) (todo : list (lane (T * option nat))) :
  forall (i : nat) (g : G * nat) h (acc r : rows) g' h',
    Forall (lane_ok g.2) todo ->
    rows_ok acc -> Forall (lane_ok g.2) (lanes acc) ->
    fill_lanes fuel i todo g h acc = Ok (r, g', h') ->
    no_more_data r = false ->
    rows_ok r /\ Forall (lane_ok g'.2) (lanes r).
Proof.
  induction todo as [|c todo IH];
    intros i g h acc r g' h' Htodo Hacc Hlanes H Hflag.
  { by injection H as <- <- _. }
  simpl in H.
  set (f := {| cur_pos := 0; cur := c; in_row := _; ch_row := _;
               tg_row := _; gen := g; hist := h |}) in H.
  destruct (fill_lane fuel i f) as [[f' stopped]| |] eqn:Hfill;
    try discriminate.
  simpl in H.
  destruct stopped.
  { apply (fill_lanes_flag (zero, None) next) in H; [congruence|].
    simpl. apply orb_true_r. }
  apply Forall_cons in Htodo as [Hc Htodo].
  assert (Hf : fill_ok f).
  { unfold fill_ok, f, zero_row. simpl. rewrite !length_replicate.
    split; [lia|]. split; [done|]. split; [done|]. split; [done|].
    right. split; [done|]. split; [|split; [|by left]].
    - intros t x y k z Ht. lia.
    - intros x k Hx. by apply elem_of_nil in Hx. }
  destruct (fill_lane_ok gen_next num_steps i fuel f f' false Hf Hfill)
    as [(Hle & Hlen & Hlen' & Hlane & Hinv) Hmono].
  pose proof (fill_lane_flag next num_steps fuel i f f' false Hfill) as HN.
  simpl in HN, Hmono.
  apply (IH _ _ _ _ _ _ _) in H; [done| | | |done].
  - eapply Forall_impl; [exact Htodo|]. intros c0.
    by apply lane_ok_mono.
  - destruct Hacc as [Hlens Hrows]. split.
    { simpl. rewrite !length_app. simpl. lia. }
    simpl. intros j row tgt Hrow Htgt.
    destruct (decide (j < length (inputs acc))%nat) as [Hj|Hj].
    + rewrite lookup_app_l in Hrow, Htgt by lia. by eapply Hrows.
    + rewrite lookup_app_r in Hrow, Htgt by lia.
      rewrite Hlens in Hrow.
      destruct (j - length (targets acc))%nat as [|j'] eqn:Hj'; [|done].
      simpl in Hrow, Htgt. injection Hrow as <-. injection Htgt as <-.
      split; [done|]. split; [done|].
      destruct Hinv as [Hsmall|(H0 & Hsh & _)].
      * intros t x y k z Ht. lia.
      * by replace (Z.to_nat (cur_pos f')) with num_steps in Hsh by lia.
  - simpl. apply Forall_app. split.
    + eapply Forall_impl; [exact Hlanes|]. intros c0.
      by apply lane_ok_mono.
    + by apply Forall_singleton.
Qed.

Lemma _get_batch_ok (fuel : nat) (st st' : assembler)
    (b : batch (T * option nat)) :
  assembler_ok st ->
  _get_batch fuel st = Yield b st' ->
  batch_ok b /\ assembler_ok st'.
Proof.
  intros Hst. unfold _get_batch.
  destruct (fill_lanes fuel 0 (cur_stream st) (generator st) (history st)
              (Rows [] [] [] [] false)) as [[[r g] h]| |] eqn:Hfill;
    [|done..].
  destruct (no_more_data r) eqn:Hflag; [done|].
  intros H. apply Yield_inj in H as [<- <-].
  apply fill_lanes_ok in Hfill as [[_ Hrows] Hlanes];
    [by split|done|..|done].
  - split; [done|]. intros j row tgt Hrow. simpl in Hrow.
    by rewrite lookup_nil in Hrow.
  - by apply Forall_nil.
Qed.

Lemma emitted_ok (n fuel : nat) :
  forall st : assembler,
    assembler_ok st -> Forall batch_ok (emitted n fuel st).
Proof.
  induction n as [|n IH]; intros st Hst; [by apply Forall_nil|].
  simpl. destruct (_get_batch fuel st) as [b st'| | |] eqn:Hb;
    try by apply Forall_nil.
  destruct (_get_batch_ok fuel st st' b Hst Hb) as [Hbok Hst'].
  apply Forall_cons. split; [done|]. by apply IH.
Qed.

End LabelledBatches.

(** C1.  Run the assembler on the program's tokens and on the same tokens
    labelled with the rank, among all the sentences pulled, of the
    sentence they come from.  The batches of the second run are the
    batches of the first with labels.  And in every batch, in every lane,
    when the inputs at the positions [t] and [t + 1] carry the same rank,
    that is when they come from the same sentence, [next_token_id] at [t]
    is [token_ids] at [t + 1]. *)
Theorem next_token_shift {T G : Type} (zero : T) (gen_next : G -> pulled T G)
    (num_steps : nat) (max_word_length : option nat)
    (batch_size n fuel : nat) (g : G) :
  let batches :=
    emitted zero gen_next num_steps max_word_length n fuel
      (start batch_size g) in
  let labelled_batches :=
    emitted (zero, None) (marking gen_next (fun k _ => k)) num_steps
      max_word_length n fuel (start batch_size (g, 0%nat)) in
  batches = erase <$> labelled_batches /\
  forall j b lb i row tgt lrow t x y k,
    batches !! j = Some b -> labelled_batches !! j = Some lb ->
    token_ids b !! i = Some row -> next_token_id b !! i = Some tgt ->
    token_ids lb !! i = Some lrow ->
    lrow !! t = Some (x, Some k) -> lrow !! S t = Some (y, Some k) ->
    tgt !! t = row !! S t.
Proof.
  intros batches labelled_batches.
  assert (Herase : batches = erase <$> labelled_batches)
    by apply marking_erased.
  split; [done|].
  intros j b lb i row tgt lrow t x y k Hb Hlb Hrow Htgt Hlrow Hx Hy.
  rewrite Herase, list_lookup_fmap, Hlb in Hb. injection Hb as <-.
  simpl in Hrow, Htgt.
  rewrite list_lookup_fmap, Hlrow in Hrow. injection Hrow as <-.
  rewrite list_lookup_fmap in Htgt.
  destruct (next_token_id lb !! i) as [ltgt|] eqn:Hltgt; [|discriminate].
  injection Htgt as <-.
  assert (Hok : batch_ok num_steps lb).
  { eapply Forall_lookup_1; [|exact Hlb]. apply emitted_ok.
    unfold assembler_ok, start. simpl. apply Forall_replicate.
    by intros s. }
  destruct (Hok i lrow ltgt Hlrow Hltgt) as (Hlen & Hlen' & Hsh).
  pose proof (lookup_lt_Some _ _ _ Hy) as Hlt.
  destruct (lookup_lt_is_Some_2 ltgt t) as [z Hz]; [lia|].
  assert (Hz' : z = (y, Some k)) by (apply (Hsh t x y k z); [lia|done..]).
  by rewrite !list_lookup_fmap, Hz, Hy, Hz'.
Qed.

(** ** The stream of a lane *)

Lemma but_last_split {A} (l : list A) (h : nat) :
  (h < length l)%nat -> take h l ++ but_last (drop h l) = but_last l.
Proof.
  intros Hh. unfold but_last. rewrite length_drop, take_take_drop.
  f_equal. lia.
Qed.

Lemma but_last_short {A} (l : list A) : (length l <= 1)%nat -> but_last l = [].
Proof.
  intros Hl. unfold but_last.
  replace (length l - 1)%nat with 0%nat by lia. done.
Qed.

Lemma pulled_by_app {T} (i : nat) (h1 h2 : list (nat * sentence T)) :
  pulled_by i (h1 ++ h2) = pulled_by i h1 ++ pulled_by i h2.
Proof. unfold pulled_by. by rewrite filter_app, fmap_app. Qed.

Lemma pulled_by_same {T} (i : nat) (s : sentence T) :
  pulled_by i [(i, s)] = [s].
Proof.
  unfold pulled_by. rewrite filter_cons_True by done. done.
Qed.

Lemma pulled_by_other {T} (i j : nat) (s : sentence T) :
  i <> j -> pulled_by j [(i, s)] = [].
Proof.
  intros Hij. unfold pulled_by. rewrite filter_cons_False by (simpl; congruence).
  done.
Qed.

Section Stream.

Context {T G : Type} (zero : T) (gen_next : G -> pulled T G).
Variables (num_steps : nat) (max_word_length : option nat).

Local Abbreviation fill := (@fill T G).
Local Abbreviation assembler := (@assembler T G).
Local Abbreviation copy := (copy (T:=T) (G:=G) num_steps).
Local Abbreviation how_many := (how_many (T:=T) (G:=G) num_steps).
Local Abbreviation refill := (refill gen_next).
Local Abbreviation iteration := (iteration gen_next num_steps).
Local Abbreviation fill_lane := (fill_lane gen_next num_steps).
Local Abbreviation fill_lanes :=
  (fill_lanes zero gen_next num_steps max_word_length).
Local Abbreviation _get_batch :=
  (_get_batch zero gen_next num_steps max_word_length).
Local Abbreviation emitted :=
  (emitted zero gen_next num_steps max_word_length).
Local Abbreviation after :=
  (after zero gen_next num_steps max_word_length).
Local Abbreviation nonempty :=
  (yields_only gen_next (fun s => s.1 <> [])).

Lemma owed_pull (i j : nat) (h : list (nat * sentence T)) (s : sentence T) :
  owed j (h ++ [(i, s)]) =
  owed j h ++ (if decide (i = j) then but_last s.1 else []).
Proof.
  unfold owed. rewrite pulled_by_app, fmap_app, concat_app.
  destruct (decide (i = j)) as [->|Hij].
  - rewrite pulled_by_same. simpl. by rewrite app_nil_r.
  - by rewrite pulled_by_other.
Qed.

(** One iteration: what is in flight grows by what is pulled. *)
Lemma iteration_stream (i : nat) (f f' : fill) :
  nonempty (gen f) ->
  0 <= cur_pos f < Z.of_nat num_steps ->
  length (in_row f) = num_steps ->
  iteration i f = Ok (Some f') ->
  nonempty (gen f') /\
  0 <= cur_pos f' <= Z.of_nat num_steps /\
  length (in_row f') = num_steps /\
  (exists new,
     hist f' = hist f ++ ((fun s => (i, s)) <$> new) /\
     in_flight f' =
       in_flight f ++ concat ((fun s => but_last s.1) <$> new)).
Proof.
  intros Hgen Hc Hlen Hit.
  apply iteration_Ok in Hit as (f1 & s & Hre & Hcp).
  assert (Hs : nonempty (gen f1) /\ (1 <= remaining s) /\
               cur_pos f1 = cur_pos f /\ in_row f1 = in_row f /\
               exists new,
                 hist f1 = hist f ++ ((fun s => (i, s)) <$> new) /\
                 take (Z.to_nat (cur_pos f)) (in_row f) ++ but_last s.1 =
                   in_flight f ++ concat ((fun s => but_last s.1) <$> new)).
  { apply refill_Ok in Hre as [(-> & Hs & Hlong)|[Hpull Hshort]].
    - split; [done|]. split; [lia|]. split; [done|]. split; [done|].
      exists []. simpl. rewrite !app_nil_r. split; [done|].
      unfold in_flight. by rewrite Hs.
    - apply pull_Ok in Hpull as (g' & Hnext & ->). simpl.
      destruct (yields_only_next gen_next _ _ _ _ Hgen Hnext) as [Hne Hgen'].
      split; [done|]. split.
      { unfold remaining. destruct s.1; [done|simpl; lia]. }
      split; [done|]. split; [done|].
      exists [s]. simpl. rewrite app_nil_r. split; [done|].
      unfold in_flight.
      assert (Hrest : undelivered (cur f) = []).
      { destruct (cur f) as [s0|] eqn:Hs0; [|done]. simpl.
        apply but_last_short. specialize (Hshort s0 eq_refl).
        unfold remaining in Hshort. lia. }
      by rewrite Hrest, app_nil_r. }
  destruct Hs as (Hgen1 & Hrem & Hc1 & Hin1 & new & Hhist & Hflight).
  apply copy_Ok in Hcp as (Hpos & Hcur & Hin & _ & Hg & Hh).
  pose proof (assign_length _ _ _ _ _ Hin) as Hlin.
  unfold remaining in Hrem.
  set (h := how_many f1 s) in *.
  assert (Hhb : 0 <= h <= Z.of_nat (length s.1) - 1 /\
                cur_pos f1 + h <= Z.of_nat num_steps).
  { unfold h, how_many, remaining. lia. }
  assert (Hlen1 : length (in_row f1) = num_steps) by congruence.
  rewrite upto_take in Hin by lia.
  rewrite assign_window in Hin;
    [|lia|lia|lia|rewrite length_take; lia].
  injection Hin as Hin.
  rewrite Hg. split; [done|]. rewrite Hpos. split; [lia|].
  rewrite Hlin, Hin1. split; [done|].
  exists new. rewrite Hh. split; [done|].
  rewrite <- Hflight. unfold in_flight at 1. rewrite Hpos, Hcur, <- Hin.
  simpl. rewrite from_drop by lia.
  rewrite app_assoc, take_app_length'.
  2:{ rewrite length_app, !length_take. lia. }
  rewrite Hc1, Hin1, <- app_assoc. f_equal.
  apply but_last_split. lia.
Qed.

Lemma owed_app (i j : nat) (h : list (nat * sentence T))
    (new : list (sentence T)) :
  owed j (h ++ ((fun s => (i, s)) <$> new)) =
  owed j h ++
  (if decide (i = j) then concat ((fun s => but_last s.1) <$> new) else []).
Proof.
  induction new as [|s new IH] using rev_ind.
  { simpl. destruct (decide _); by rewrite !app_nil_r. }
  rewrite fmap_app, app_assoc. simpl. rewrite owed_pull, IH.
  destruct (decide (i = j)).
  - rewrite fmap_app, concat_app. simpl. by rewrite app_nil_r, app_assoc.
  - by rewrite !app_nil_r.
Qed.

Lemma fill_lane_stream (i : nat) (fuel : nat) :
  forall (f f' : fill) (stopped : bool),
    nonempty (gen f) ->
    0 <= cur_pos f <= Z.of_nat num_steps ->
    length (in_row f) = num_steps ->
    fill_lane fuel i f = Ok (f', stopped) ->
    nonempty (gen f') /\
    0 <= cur_pos f' <= Z.of_nat num_steps /\
    length (in_row f') = num_steps /\
    (exists new,
       hist f' = hist f ++ ((fun s => (i, s)) <$> new) /\
       in_flight f' =
         in_flight f ++ concat ((fun s => but_last s.1) <$> new)).
Proof.
  induction fuel as [|fuel IH]; intros f f' stopped Hgen Hc Hlen H;
    [discriminate|].
  assert (Hstay : nonempty (gen f) /\
            0 <= cur_pos f <= Z.of_nat num_steps /\
            length (in_row f) = num_steps /\
            (exists new,
               hist f = hist f ++ ((fun s => (i, s)) <$> new) /\
               in_flight f =
                 in_flight f ++ concat ((fun s => but_last s.1) <$> new))).
  { split; [done|]. split; [done|]. split; [done|].
    exists []. simpl. by rewrite !app_nil_r. }
  simpl in H. destruct (Z.ltb_spec (cur_pos f) (Z.of_nat num_steps)).
  - destruct (iteration i f) as [[f1|]| |] eqn:Hit; try discriminate.
    + destruct (iteration_stream i f f1 Hgen ltac:(lia) Hlen Hit)
        as (Hgen1 & Hc1 & Hlen1 & new1 & Hh1 & Hf1).
      destruct (IH f1 f' stopped Hgen1 Hc1 Hlen1 H)
        as (Hgen' & Hc' & Hlen' & new2 & Hh2 & Hf2).
      split; [done|]. split; [done|]. split; [done|].
      exists (new1 ++ new2).
      rewrite Hh2, Hh1, Hf2, Hf1, !fmap_app, concat_app, !app_assoc.
      done.
    + by injection H as <- <-.
  - by injection H as <- <-.
Qed.

Lemma fill_lanes_stream (out : nat -> list T) (fuel : nat)
    (todo : list (lane T)) :
  forall (i : nat) (g : G) h (acc r : rows) g' h',
    nonempty g ->
    length (inputs acc) = i -> length (lanes acc) = i ->
    settled out todo i h ->
    (forall j row c,
       inputs acc !! j = Some row -> lanes acc !! j = Some c ->
       out j ++ row ++ undelivered c = owed j h) ->
    fill_lanes fuel i todo g h acc = Ok (r, g', h') ->
    no_more_data r = false ->
    nonempty g' /\
    length (inputs r) = (i + length todo)%nat /\
    length (lanes r) = (i + length todo)%nat /\
    (forall j row c,
       inputs r !! j = Some row -> lanes r !! j = Some c ->
       out j ++ row ++ undelivered c = owed j h').
Proof.
  induction todo as [|c todo IH];
    intros i g h acc r g' h' Hgen Hli Hll Htodo Hacc H Hflag.
  { injection H as <- <- <-. simpl. by rewrite Nat.add_0_r. }
  simpl in H.
  set (f := {| cur_pos := 0; cur := c; in_row := _; ch_row := _;
               tg_row := _; gen := g; hist := h |}) in H.
  destruct (fill_lane fuel i f) as [[f' stopped]| |] eqn:Hfill;
    try discriminate.
  simpl in H.
  destruct stopped.
  { apply (fill_lanes_flag zero gen_next) in H; [congruence|].
    simpl. apply orb_true_r. }
  destruct (fill_lane_stream i fuel f f' false)
    as (Hgen' & Hc' & Hlen' & new & Hh & Hfl); try done.
  { simpl. lia. }
  { unfold f, zero_row. simpl. by rewrite length_replicate. }
  pose proof (fill_lane_flag gen_next num_steps fuel i f f' false Hfill) as HN.
  simpl in HN, Hh.
  assert (Hrow : out i ++ in_row f' ++ undelivered (cur f') = owed i (hist f')).
  { rewrite Hh, owed_app, decide_True by done.
    pose proof (Htodo 0%nat c eq_refl) as Hfirst.
    rewrite Nat.add_0_r in Hfirst.
    rewrite <- Hfirst, <- app_assoc. f_equal.
    unfold in_flight in Hfl. simpl in Hfl.
    rewrite <- Hfl. f_equal. symmetry. apply take_ge. lia. }
  apply (IH (S i)) in H; try done.
  - destruct H as (? & ? & ? & ?). simpl.
    split; [done|]. split; [lia|]. split; [lia|done].
  - simpl. rewrite length_app. simpl. lia.
  - simpl. rewrite length_app. simpl. lia.
  - intros j c' Hj. rewrite Hh, owed_app, decide_False, app_nil_r by lia.
    replace (S i + j)%nat with (i + S j)%nat by lia.
    by apply Htodo.
  - simpl. intros j row c' Hr Hl.
    destruct (decide (j < i)%nat) as [Hj|Hj].
    + rewrite lookup_app_l in Hr by lia. rewrite lookup_app_l in Hl by lia.
      rewrite Hh, owed_app, decide_False, app_nil_r by lia.
      by apply Hacc.
    + rewrite lookup_app_r in Hr by lia. rewrite lookup_app_r in Hl by lia.
      rewrite Hli in Hr. rewrite Hll in Hl.
      destruct (j - i)%nat as [|j'] eqn:Hj'; [|done].
      simpl in Hr, Hl. injection Hr as <-. injection Hl as <-.
      by replace j with i by lia.
Qed.

Lemma _get_batch_stream (out : nat -> list T) (fuel : nat)
    (st st' : assembler) (b : batch T) :
  nonempty (generator st) ->
  settled out (cur_stream st) 0 (history st) ->
  _get_batch fuel st = Yield b st' ->
  nonempty (generator st') /\
  length (cur_stream st') = length (cur_stream st) /\
  settled (fun j => out j ++ default [] (token_ids b !! j))
    (cur_stream st') 0 (history st').
Proof.
  intros Hgen Hst. unfold _get_batch.
  destruct (fill_lanes fuel 0 (cur_stream st) (generator st) (history st)
              (Rows [] [] [] [] false)) as [[[r g] h]| |] eqn:Hfill;
    [|done..].
  destruct (no_more_data r) eqn:Hflag; [done|].
  intros H. apply Yield_inj in H as [<- <-]. simpl.
  apply (fill_lanes_stream out) in Hfill
    as (Hgen' & Hli & Hll & Hrows); [|done..].
  split; [done|]. split; [done|].
  intros j c Hc. simpl.
  destruct (lookup_lt_is_Some_2 (inputs r) j) as [row Hrow].
  { apply lookup_lt_Some in Hc. lia. }
  rewrite Hrow. simpl. rewrite <- app_assoc. by apply Hrows.
Qed.

Lemma lane_tokens_cons (i : nat) (b : batch T) (bs : list (batch T)) :
  lane_tokens i (b :: bs) = default [] (token_ids b !! i) ++ lane_tokens i bs.
Proof. done. Qed.

Lemma emitted_stream (n fuel : nat) :
  forall (out : nat -> list T) (st st' : assembler),
    nonempty (generator st) ->
    settled out (cur_stream st) 0 (history st) ->
    after n fuel st = Some st' ->
    length (cur_stream st') = length (cur_stream st) /\
    settled (fun j => out j ++ lane_tokens j (emitted n fuel st))
      (cur_stream st') 0 (history st').
Proof.
  induction n as [|n IH]; intros out st st' Hgen Hst Hafter.
  { injection Hafter as <-. split; [done|]. intros j c Hc. simpl.
    unfold lane_tokens. simpl. rewrite app_nil_r. by apply Hst. }
  simpl in Hafter |- *.
  destruct (_get_batch fuel st) as [b st1| | |] eqn:Hb; try discriminate.
  destruct (_get_batch_stream out fuel st st1 b Hgen Hst Hb)
    as (Hgen1 & Hlen1 & Hst1).
  destruct (IH _ st1 st' Hgen1 Hst1 Hafter) as [Hlen' Hst'].
  split; [congruence|].
  intros j c Hc. rewrite lane_tokens_cons, app_assoc. by apply Hst'.
Qed.

End Stream.

(** ** The history *)

Section History.

Context {T G : Type} (zero : T) (gen_next : G -> pulled T G).
Variables (num_steps : nat) (max_word_length : option nat).

Local Abbreviation fill := (@fill T G).
Local Abbreviation assembler := (@assembler T G).
Local Abbreviation iteration := (iteration gen_next num_steps).
Local Abbreviation fill_lane := (fill_lane gen_next num_steps).
Local Abbreviation fill_lanes :=
  (fill_lanes zero gen_next num_steps max_word_length).
Local Abbreviation _get_batch :=
  (_get_batch zero gen_next num_steps max_word_length).
Local Abbreviation after :=
  (after zero gen_next num_steps max_word_length).
Local Abbreviation pulls_from := (pulls_from gen_next).

Lemma pulls_from_app (g g' g'' : G) (new new' : list (sentence T)) :
  pulls_from g new g' -> pulls_from g' new' g'' ->
  pulls_from g (new ++ new') g''.
Proof.
  induction 1 as [g|g g1 g2 s new Hnext _ IH]; intros H'; [done|].
  simpl. eapply pulls_more; [done|]. by apply IH.
Qed.

(** What is added to the history is what the generator yielded. *)
Lemma iteration_history (i : nat) (f f' : fill) :
  iteration i f = Ok (Some f') ->
  exists new,
    hist f' = hist f ++ new /\ pulls_from (gen f) (snd <$> new) (gen f').
Proof.
  intros Hit. apply iteration_Ok in Hit as (f1 & s & Hre & Hcp).
  apply copy_Ok in Hcp as (_ & _ & _ & _ & Hg & Hh).
  rewrite Hg, Hh.
  apply refill_Ok in Hre as [(-> & _ & _)|[Hpull _]].
  - exists []. rewrite app_nil_r. split; [done|]. apply pulls_none.
  - apply pull_Ok in Hpull as (g' & Hnext & ->). simpl.
    exists [(i, s)]. split; [done|]. simpl.
    eapply pulls_more; [exact Hnext|apply pulls_none].
Qed.

Lemma fill_lane_history (i : nat) (fuel : nat) :
  forall (f f' : fill) (stopped : bool),
    fill_lane fuel i f = Ok (f', stopped) ->
    exists new,
      hist f' = hist f ++ new /\ pulls_from (gen f) (snd <$> new) (gen f').
Proof.
  induction fuel as [|fuel IH]; intros f f' stopped H; [discriminate|].
  assert (Hstay : exists new,
            hist f = hist f ++ new /\
            pulls_from (gen f) (snd <$> new) (gen f)).
  { exists []. rewrite app_nil_r. split; [done|]. apply pulls_none. }
  simpl in H. destruct (cur_pos f <? Z.of_nat num_steps).
  - destruct (iteration i f) as [[f1|]| |] eqn:Hit; try discriminate.
    + destruct (iteration_history i f f1 Hit) as (new1 & Hh1 & Hp1).
      destruct (IH f1 f' stopped H) as (new2 & Hh2 & Hp2).
      exists (new1 ++ new2). rewrite Hh2, Hh1, app_assoc, fmap_app.
      split; [done|]. by eapply pulls_from_app.
    + by injection H as <- <-.
  - by injection H as <- <-.
Qed.

Lemma fill_lanes_history (fuel : nat) (todo : list (lane T)) :
  forall (i : nat) (g : G) h (acc r : rows) g' h',
    fill_lanes fuel i todo g h acc = Ok (r, g', h') ->
    exists new, h' = h ++ new /\ pulls_from g (snd <$> new) g'.
Proof.
  induction todo as [|c todo IH]; intros i g h acc r g' h' H.
  { injection H as _ <- <-. exists []. rewrite app_nil_r.
    split; [done|]. apply pulls_none. }
  simpl in H.
  set (f := {| cur_pos := 0; cur := c; in_row := _; ch_row := _;
               tg_row := _; gen := g; hist := h |}) in H.
  destruct (fill_lane fuel i f) as [[f' stopped]| |] eqn:Hfill;
    try discriminate.
  simpl in H.
  destruct (fill_lane_history i fuel f f' stopped Hfill) as (new1 & Hh1 & Hp1).
  destruct (IH _ _ _ _ _ _ _ H) as (new2 & Hh2 & Hp2).
  exists (new1 ++ new2). rewrite Hh2, Hh1, app_assoc, fmap_app.
  split; [done|]. by eapply pulls_from_app.
Qed.

Lemma after_history (n fuel : nat) :
  forall (st st' : assembler),
    after n fuel st = Some st' ->
    exists new,
      history st' = history st ++ new /\
      pulls_from (generator st) (snd <$> new) (generator st').
Proof.
  induction n as [|n IH]; intros st st' Hafter.
  { injection Hafter as <-. exists []. rewrite app_nil_r.
    split; [done|]. apply pulls_none. }
  simpl in Hafter. unfold _get_batch in Hafter.
  destruct (fill_lanes fuel 0 (cur_stream st) (generator st) (history st)
              (Rows [] [] [] [] false)) as [[[r g] h]| |] eqn:Hfill;
    try discriminate.
  destruct (no_more_data r); [discriminate|].
  destruct (fill_lanes_history _ _ _ _ _ _ _ _ _ Hfill) as (new1 & Hh1 & Hp1).
  destruct (IH _ _ Hafter) as (new2 & Hh2 & Hp2). simpl in Hh2, Hp2.
  exists (new1 ++ new2). rewrite Hh2, Hh1, app_assoc, fmap_app.
  split; [done|]. by eapply pulls_from_app.
Qed.

End History.

(** C2, as the code has it.  The history records the sentences the
    generator yielded, in this order, each with the lane that pulled it.
    When the generator yields no sentence without tokens, after any number
    of batches the [token_ids] of a lane, one batch after the other,
    followed by the rest of the lane's sentence without its last token,
    are the sentences the lane pulled, in the order of the pulls, each
    without its last token; so the [token_ids] of the lane are a prefix of
    that. *)
Theorem lane_stream_is_owed {T G : Type} (zero : T)
    (gen_next : G -> pulled T G) (num_steps : nat)
    (max_word_length : option nat) (batch_size n fuel : nat) (g : G)
    (st' : assembler) (i : nat) :
  yields_only gen_next (fun s => s.1 <> []) g ->
  after zero gen_next num_steps max_word_length n fuel (start batch_size g)
    = Some st' ->
  (i < batch_size)%nat ->
  let delivered :=
    lane_tokens i (emitted zero gen_next num_steps max_word_length n fuel
                     (start batch_size g)) in
  let sentences := pulled_by i (history st') in
  pulls_from gen_next g (snd <$> history st') (generator st') /\
  (exists c,
     cur_stream st' !! i = Some c /\
     delivered ++ undelivered c =
       concat ((fun s => but_last s.1) <$> sentences)) /\
  delivered `prefix_of` concat ((fun s => but_last s.1) <$> sentences).
Proof.
  intros Hgen Hafter Hi delivered sentences.
  split.
  { destruct (after_history zero gen_next num_steps max_word_length n fuel
                _ _ Hafter) as (new & Hh & Hp).
    simpl in Hh, Hp. by rewrite Hh. }
  destruct (emitted_stream zero gen_next num_steps max_word_length n fuel
              (fun _ => []) (start batch_size g) st' Hgen) as [Hlen Hst'];
    [|done|].
  { intros j c Hc. unfold start in Hc. simpl in Hc.
    apply lookup_replicate in Hc as [-> _]. done. }
  destruct (lookup_lt_is_Some_2 (cur_stream st') i) as [c Hc].
  { rewrite Hlen. unfold start. simpl. by rewrite length_replicate. }
  pose proof (Hst' i c Hc) as Heq. simpl in Heq.
  assert (Hsplit : delivered ++ undelivered c =
                   concat ((fun s => but_last s.1) <$> sentences)) by done.
  split; [by exists c|]. rewrite <- Hsplit. by apply prefix_app_r.
Qed.

(** ** The properties on the demonstration world *)

Lemma list_yields_only {T : Type} (P : sentence T -> Prop)
    (l : list (sentence T)) :
  Forall P l -> yields_only list_next P l.
Proof.
  intros Hl n. revert l Hl.
  induction n as [|n IH]; intros l Hl g' s g'' Hafter Hnext.
  - injection Hafter as <-. destruct l as [|s0 l]; [discriminate|].
    injection Hnext as <- _. by apply Forall_cons in Hl as [? _].
  - destruct l as [|s0 l]; [discriminate|]. simpl in Hafter.
    apply Forall_cons in Hl as [_ Hl]. by eapply IH.
Qed.

Lemma demo_shuffle_permutes (A : Type) (r : unit) (l : list A) :
  (Demo.shuffle A r l).1 ≡ₚ l.
Proof. apply reverse_Permutation. Qed.

Lemma demo_source_long :
  yields_only list_next (fun s : sentence Z => (2 <= length s.1)%nat)
    Demo.source.
Proof. apply list_yields_only. repeat constructor; simpl; lia. Qed.

Lemma demo_source_nonempty :
  yields_only list_next (fun s : sentence Z => s.1 <> []) Demo.source.
Proof. apply list_yields_only. by repeat constructor. Qed.

(** The two batches of the demonstration source. *)
Example demo_batches :
  emitted 0 list_next 2 None 2 3 (start 1 Demo.source) =
  [ {| token_ids := [[1; 2]]; tokens_characters := None;
       next_token_id := [[2; 3]] |};
    {| token_ids := [[4; 5]]; tokens_characters := None;
       next_token_id := [[5; 6]] |} ].
Proof. reflexivity. Qed.

(** The lines [a b c] and [d e], one lane, two steps: the second batch
    starts with [d] and finds the source exhausted, so that one batch is
    yielded. *)
Example spec_scenario :
  emitted 0 list_next 2 None 2 3
    (start 1 [([97; 98; 99], None); ([100; 101], None)]) =
  [ {| token_ids := [[97; 98]]; tokens_characters := None;
       next_token_id := [[98; 99]] |} ].
Proof. reflexivity. Qed.

(** A sentence without tokens moves the cursor back: the token written
    last is written over. *)
Example empty_sentence_moves_back :
  iteration list_next 3 0
    {| cur_pos := 1; cur := Some ([2], None); in_row := [1; 0; 0];
       ch_row := None; tg_row := [2; 0; 0];
       gen := [([], None)]; hist := [] |} =
  Ok (Some {| cur_pos := 0; cur := Some ([], None); in_row := [1; 0; 0];
              ch_row := None; tg_row := [2; 0; 0];
              gen := []; hist := [(0%nat, ([], None))] |}).
Proof. reflexivity. Qed.

(** C2 as stated fails: the last token of a sentence is in no
    [token_ids]; it is a target only. *)
Lemma lane_stream_drops_last_tokens :
  after 0 list_next 2 None 2 3 (start 1 Demo.source) = Some Demo.drained /\
  lane_tokens 0 (emitted 0 list_next 2 None 2 3 (start 1 Demo.source))
    = [1; 2; 4; 5] /\
  concat (fst <$> pulled_by 0 (history Demo.drained)) = [1; 2; 3; 4; 5; 6] /\
  ~ lane_tokens 0 (emitted 0 list_next 2 None 2 3 (start 1 Demo.source))
      `prefix_of` concat (fst <$> pulled_by 0 (history Demo.drained)).
Proof.
  split; [reflexivity|]. split; [reflexivity|]. split; [reflexivity|].
  intros [k Hk]. vm_compute in Hk. discriminate.
Qed.

Lemma lane_stream_is_owed_witness :
  yields_only list_next (fun s : sentence Z => s.1 <> []) Demo.source /\
  lane_tokens 0 (emitted 0 list_next 2 None 2 3 (start 1 Demo.source))
    `prefix_of`
    concat ((fun s => but_last s.1) <$> pulled_by 0 (history Demo.drained)).
Proof.
  split; [exact demo_source_nonempty|].
  apply (lane_stream_is_owed 0 list_next 2 None 1 2 3 Demo.source
           Demo.drained 0 demo_source_nonempty).
  - reflexivity.
  - lia.
Defined.

(** A line of one token in the corpus leaves the batches as they are. *)
Example one_token_line_is_skipped :
  emitted 0 list_next 2 None 2 3
    (start 1 [([1; 2; 3], None); ([9], None); ([4; 5; 6], None)]) =
  emitted 0 list_next 2 None 2 3 (start 1 Demo.source).
Proof. reflexivity. Qed.

(** C7 as stated fails: of two shards the one found last is loaded
    first. *)
Lemma test_shards_not_in_found_order :
  loading_names
    (log (load_many Demo.shuffle Demo.files Demo.split Demo.join
            Demo.vocab_encode None 1 Demo.testing Demo.w0).2) = ["s1"] /\
  take 1 (_all_shards Demo.testing) = ["s0"].
Proof. split; reflexivity. Qed.

Lemma test_shards_last_first_witness :
  _test Demo.testing = true /\
  exists d' w',
    load_many Demo.shuffle Demo.files Demo.split Demo.join
      Demo.vocab_encode None 2 Demo.testing Demo.w0 = (d', w') /\
    loading_names (log w') = ["s1"; "s0"] /\
    _all_shards d' = [].
Proof.
  split; [reflexivity|].
  apply (test_shards_last_first Demo.shuffle Demo.files Demo.split Demo.join
           Demo.vocab_encode None 2 Demo.testing Demo.w0).
  - reflexivity.
  - intros x Hx. simpl in Hx.
    apply elem_of_cons in Hx as [->|Hx]; [by eexists|].
    apply elem_of_cons in Hx as [->|Hx]; [by eexists|].
    by apply elem_of_nil in Hx.
Defined.

Lemma shuffle_bag_epoch_witness :
  _shards_to_choose Demo.fresh = [] /\
  exists names d' w',
    choose_many Demo.shuffle 2 Demo.fresh Demo.w0 = (names, d', w') /\
    names ≡ₚ ["s0"; "s1"] /\
    _shards_to_choose d' = [] /\
    _all_shards d' = ["s0"; "s1"].
Proof.
  split; [reflexivity|].
  apply (proj2 (shuffle_bag_epoch Demo.shuffle demo_shuffle_permutes
                  Demo.fresh Demo.w0)).
  reflexivity.
Defined.

(** C9 as stated fails: with no shard the constructor raises. *)
Lemma no_shard_constructor_raises :
  (Demo.init [] false).1.1 = inr IndexError /\
  (Demo.init [] true).1.1 = inr StopIteration.
Proof. split; reflexivity. Qed.

Lemma no_shard_fails_in_constructor_witness :
  exists d' w',
    Demo.init [] false = (inr IndexError, d', w') /\
    log w' = [Found 0 "s*"].
Proof.
  apply (no_shard_fails_in_constructor Demo.shuffle Demo.files Demo.split
           Demo.join Demo.vocab_encode None demo_shuffle_permutes
           "s*" false false false Demo.w0).
Defined.

Lemma fill_loop_terminates_witness :
  yields_only list_next (fun s : sentence Z => (2 <= length s.1)%nat)
    Demo.source /\
  _get_batch 0 list_next 2 None 3 (start 1 Demo.source) <> Diverge.
Proof.
  split; [exact demo_source_long|].
  apply (fill_loop_terminates 0 list_next 2 None 3 (start 1 Demo.source)).
  - exact demo_source_long.
  - lia.
Defined.

(** C4: the code at the failing input.  In test mode with the one shard
    [s0], whose one line is [a b c], the constructor loads the shard; the
    first batch comes out; and the second call, which needs a shard that
    is not there, raises [RuntimeError] instead of ending the batches. *)
Theorem test_end_of_data_raises :
  Demo.init ["s0"] true = (inl tt, Demo.loaded, Demo.w1) /\
  (exists st,
     Demo.batches Demo.loaded 3 (start 1 (Some (Demo.loaded, Demo.w1))) =
       Yield {| token_ids := [[97; 98]]; tokens_characters := None;
                next_token_id := [[98; 99]] |} st /\
     Demo.batches Demo.loaded 3 st = Throw RuntimeError) /\
  get_sentence Demo.shuffle Demo.files Demo.split Demo.join Demo.vocab_encode
    None (Some (set_cursor Demo.loaded 1 1, Demo.w1)) = Failed RuntimeError.
Proof.
  split; [reflexivity|]. split.
  - eexists. split; reflexivity.
  - reflexivity.
Qed.

(** ** Short sentences *)

Lemma assign_subseteq {A} (row row' v : list A) (lo hi : Z) :
  Py.assign row lo hi v = Ok row' -> row' ⊆ row ++ v.
Proof.
  unfold Py.assign. destruct (decide _).
  - intros [= <-] x Hx.
    rewrite !elem_of_app in Hx. rewrite elem_of_app.
    destruct Hx as [Hx|[Hx|Hx]]; [left|by right|left].
    + by eapply subseteq_take.
    + by eapply subseteq_drop.
  - destruct v as [|y [|]]; try discriminate.
    intros [= <-] x Hx.
    rewrite !elem_of_app in Hx. rewrite elem_of_app.
    destruct Hx as [Hx|[Hx|Hx]]; [left| |left].
    + by eapply subseteq_take.
    + apply elem_of_replicate in Hx as [-> _]. right. apply list_elem_of_here.
    + by eapply subseteq_drop.
Qed.

Lemma assign_empty {A} (row row' : list A) (lo hi : Z) :
  Py.assign row lo hi [] = Ok row' -> row' = row.
Proof.
  unfold Py.assign. destruct (decide _) as [Hm|Hm]; [|discriminate].
  intros [= <-]. simpl in Hm. rewrite <- Hm. simpl.
  by rewrite Nat.add_0_r, take_drop.
Qed.

(** Of a sentence of one token at most, lines 35 and 39 copy nothing. *)
Lemma short_slices {A} (l : list A) (h : Z) :
  (length l <= 1)%nat -> h <= Z.of_nat (length l) - 1 ->
  Py.upto l h = [] /\ Py.slice l 1 (h + 1) = [].
Proof.
  intros Hl Hh. unfold Py.upto, Py.slice, Py.bound. split.
  - replace (Z.to_nat _) with 0%nat; [done|].
    destruct (Z.ltb_spec h 0), (Z.ltb_spec 0 0); lia.
  - replace (Z.to_nat ((if h + 1 <? 0 then _ else _) - _)) with 0%nat;
      [done|].
    destruct (Z.ltb_spec (h + 1) 0), (Z.ltb_spec 1 0); lia.
Qed.

Section Short.

Context {T G : Type} (zero : T) (gen_next : G -> pulled T G).
Variables (num_steps : nat) (max_word_length : option nat).

Local Abbreviation next := (marking gen_next (short (T:=T))).
Local Abbreviation fill := (@fill (T * option bool) (G * nat)).
Local Abbreviation assembler := (@assembler (T * option bool) (G * nat)).
Local Abbreviation copy := (copy (T:=T * option bool) (G:=G * nat) num_steps).
Local Abbreviation how_many :=
  (how_many (T:=T * option bool) (G:=G * nat) num_steps).
Local Abbreviation iteration := (iteration next num_steps).
Local Abbreviation fill_lane := (fill_lane next num_steps).
Local Abbreviation fill_lanes :=
  (fill_lanes (zero, None) next num_steps max_word_length).
Local Abbreviation _get_batch :=
  (_get_batch (zero, None) next num_steps max_word_length).
Local Abbreviation emitted :=
  (emitted (zero, None) next num_steps max_word_length).

Lemma clean_subseteq (l l' : list (T * option bool)) :
  l' ⊆ l -> clean l -> clean l'.
Proof. intros Hsub Hl x Hx. apply Hl. by apply Hsub. Qed.

Lemma clean_app (l l' : list (T * option bool)) :
  clean l -> clean l' -> clean (l ++ l').
Proof.
  intros Hl Hl' x Hx. apply elem_of_app in Hx as [Hx|Hx]; eauto.
Qed.

Lemma mark_short (k : nat) (s : sentence T) :
  clean (mark short k s).1 \/ remaining (mark short k s) <= 1.
Proof.
  unfold mark, remaining, short. simpl. rewrite length_fmap.
  destruct (bool_decide_reflect (length s.1 <= 1)%nat) as [Hs|Hs].
  - right. lia.
  - left. intros x Hx. apply list_elem_of_fmap in Hx as (y & -> & _). done.
Qed.

Lemma copy_clean (f1 f' : fill) (s : sentence (T * option bool)) :
  copy f1 s = Ok f' ->
  clean (in_row f1) -> clean (tg_row f1) ->
  clean s.1 \/ remaining s <= 1 ->
  fill_clean f'.
Proof.
  intros Hcp Hin Htg Hs.
  apply copy_Ok in Hcp as (_ & Hcur & Hin' & Htg' & _).
  assert (Hlane : lane_clean (cur f')).
  { rewrite Hcur. intros s' [= <-]. simpl.
    destruct Hs as [Hs|Hs].
    - left. eapply clean_subseteq; [apply slice_subseteq|done].
    - right. unfold remaining in *. simpl.
      pose proof (slice_subseteq s.1 (how_many f1 s) (Z.of_nat (length s.1)))
        as Hsub.
      unfold Py.from, Py.slice. rewrite length_take, length_drop. lia. }
  destruct Hs as [Hs|Hs].
  - split; [|split; [|done]].
    + eapply clean_subseteq; [by eapply assign_subseteq|].
      apply clean_app; [done|].
      eapply clean_subseteq; [apply slice_subseteq|done].
    + eapply clean_subseteq; [by eapply assign_subseteq|].
      apply clean_app; [done|].
      eapply clean_subseteq; [apply slice_subseteq|done].
  - destruct (short_slices s.1 (how_many f1 s)) as [Hup Hsl].
    { unfold remaining in Hs. lia. }
    { unfold how_many, remaining. lia. }
    rewrite Hup in Hin'. rewrite Hsl in Htg'.
    apply assign_empty in Hin', Htg'. unfold fill_clean.
    rewrite Hin', Htg'. by split.
Qed.

Lemma iteration_clean (i : nat) (f f' : fill) :
  fill_clean f -> iteration i f = Ok (Some f') -> fill_clean f'.
Proof.
  intros (Hin & Htg & Hlane) Hit.
  apply iteration_Ok in Hit as (f1 & s & Hre & Hcp).
  apply refill_Ok in Hre as [(-> & Hs & Hlong)|[Hpull _]].
  - apply (copy_clean f f' s Hcp Hin Htg). by apply Hlane.
  - apply pull_Ok in Hpull as (g' & Hnext & ->).
    apply (copy_clean _ f' s Hcp); [done|done|].
    unfold marking in Hnext.
    destruct (gen_next (gen f).1) as [s0 g0| |e]; try discriminate.
    injection Hnext as <- _. apply mark_short.
Qed.

Lemma fill_lane_clean (i : nat) (fuel : nat) :
  forall (f f' : fill) (stopped : bool),
    fill_clean f -> fill_lane fuel i f = Ok (f', stopped) -> fill_clean f'.
Proof.
  induction fuel as [|fuel IH]; intros f f' stopped Hf H; [discriminate|].
  simpl in H. destruct (cur_pos f <? Z.of_nat num_steps).
  - destruct (iteration i f) as [[f1|]| |] eqn:Hit; try discriminate.
    + eapply IH; [|exact H]. by eapply iteration_clean.
    + by injection H as <- <-.
  - by injection H as <- <-.
Qed.

Lemma fill_lanes_clean (fuel : nat) (todo : list (lane (T * option bool))) :
  forall (i : nat) g h (acc r : rows) g' h',
    Forall lane_clean todo -> rows_clean acc ->
    fill_lanes fuel i todo g h acc = Ok (r, g', h') ->
    rows_clean r.
Proof.
  induction todo as [|c todo IH]; intros i g h acc r g' h' Htodo Hacc H.
  { by injection H as <- _ _. }
  simpl in H.
  set (f := {| cur_pos := 0; cur := c; in_row := _; ch_row := _;
               tg_row := _; gen := g; hist := h |}) in H.
  destruct (fill_lane fuel i f) as [[f' stopped]| |] eqn:Hfill;
    try discriminate.
  simpl in H. apply Forall_cons in Htodo as [Hc Htodo].
  assert (Hzero : clean (zero_row (zero, None) num_steps)).
  { intros x Hx. apply elem_of_replicate in Hx as [-> _]. done. }
  destruct (fill_lane_clean i fuel f f' stopped) as (Hin & Htg & Hlane);
    [by split|done|].
  destruct Hacc as (Hai & Hat & Hal).
  eapply IH; [done| |exact H].
  split; [|split]; simpl; apply Forall_app; split; try done;
    by apply Forall_singleton.
Qed.

Lemma _get_batch_clean (fuel : nat) (st st' : assembler)
    (b : batch (T * option bool)) :
  Forall lane_clean (cur_stream st) ->
  _get_batch fuel st = Yield b st' ->
  Forall clean (token_ids b) /\ Forall clean (next_token_id b) /\
  Forall lane_clean (cur_stream st').
Proof.
  intros Hst. unfold _get_batch.
  destruct (fill_lanes fuel 0 (cur_stream st) (generator st) (history st)
              (Rows [] [] [] [] false)) as [[[r g] h]| |] eqn:Hfill;
    [|done..].
  destruct (no_more_data r); [done|].
  intros H. apply Yield_inj in H as [<- <-]. simpl.
  eapply fill_lanes_clean; [exact Hst| |exact Hfill].
  by repeat split.
Qed.

Lemma emitted_clean (n fuel : nat) :
  forall st : assembler,
    Forall lane_clean (cur_stream st) ->
    Forall (fun b => Forall clean (token_ids b) /\
                     Forall clean (next_token_id b))
      (emitted n fuel st).
Proof.
  induction n as [|n IH]; intros st Hst; [by apply Forall_nil|].
  simpl. destruct (_get_batch fuel st) as [b st'| | |] eqn:Hb;
    try by apply Forall_nil.
  destruct (_get_batch_clean fuel st st' b Hst Hb) as (Hi & Ht & Hst').
  apply Forall_cons. split; [done|]. by apply IH.
Qed.

End Short.

(** C5.  Run the assembler on the program's tokens and on the same tokens
    labelled with whether their sentence has one token at most.  The
    batches of the second run are the batches of the first with labels,
    and no [token_ids] and no [next_token_id] of a batch holds a token of
    such a sentence.  In the loop of a lane, a sentence with one token
    left, or none, is treated as an empty lane: the iteration pulls the
    next sentence whatever the tokens left; and an iteration that pulls a
    sentence of one token copies nothing, and leaves the lane with this
    one token, to be replaced in the next iteration. *)
Theorem short_sentence_is_skipped {T G : Type} (zero : T)
    (gen_next : G -> pulled T G) (num_steps : nat)
    (max_word_length : option nat) (batch_size n fuel : nat) (g : G) :
  let batches :=
    emitted zero gen_next num_steps max_word_length n fuel
      (start batch_size g) in
  let labelled_batches :=
    emitted (zero, None) (marking gen_next short) num_steps
      max_word_length n fuel (start batch_size (g, 0%nat)) in
  batches = erase <$> labelled_batches /\
  (forall j lb i row x,
     labelled_batches !! j = Some lb ->
     token_ids lb !! i = Some row \/ next_token_id lb !! i = Some row ->
     x ∈ row -> x.2 <> Some true) /\
  (forall (i : nat) (f : fill) s,
     cur f = Some s -> remaining s <= 1 ->
     iteration gen_next num_steps i f =
     iteration gen_next num_steps i
       {| cur_pos := cur_pos f; cur := None; in_row := in_row f;
          ch_row := ch_row f; tg_row := tg_row f; gen := gen f;
          hist := hist f |}) /\
  (forall (i : nat) (f f' : fill) s g',
     cur_pos f < Z.of_nat num_steps ->
     (forall s0, cur f = Some s0 -> remaining s0 <= 1) ->
     gen_next (gen f) = Yielded s g' ->
     remaining s = 1 ->
     iteration gen_next num_steps i f = Ok (Some f') ->
     in_row f' = in_row f /\ tg_row f' = tg_row f /\
     cur_pos f' = cur_pos f /\
     exists s', cur f' = Some s' /\ s'.1 = s.1).
Proof.
  intros batches labelled_batches.
  split; [apply marking_erased|]. split; [|split].
  - intros j lb i row x Hlb Hrow Hx.
    assert (Hclean : Forall clean (token_ids lb) /\
                     Forall clean (next_token_id lb)).
    { apply (Forall_lookup_1
               (fun b : batch (T * option bool) =>
                  Forall clean (token_ids b) /\
                  Forall clean (next_token_id b))
               labelled_batches j lb); [|exact Hlb].
      apply emitted_clean. unfold start. simpl.
      apply Forall_replicate. by intros s. }
    destruct Hclean as [Hin Htg].
    destruct Hrow as [Hrow|Hrow].
    + by apply (Forall_lookup_1 _ _ _ _ Hin Hrow).
    + by apply (Forall_lookup_1 _ _ _ _ Htg Hrow).
  - intros i f s.
    apply (proj1 (short_lane_is_refilled gen_next num_steps i f)).
  - intros i f f' s g'.
    apply (proj2 (short_lane_is_refilled gen_next num_steps i f)).
Qed.
